(** * cryojax: scattering and image configuration

    A shallow embedding of [cryojax/simulator/scattering.py] and of the
    voxel-grid properties exercised by [tests/test_voxels_from_atoms.py].

    Conventions.
    - Python integers are [Z]; [//] is [Z.div] (floor division).
    - A Python call that can raise returns a [result].
    - A float is represented by the rational it denotes ([Q]); the rounding
      of the one float product of [ImageConfig] is explicit.  Array entries
      that the program only moves, masks and adds live in an abstract
      additive type; the Gaussians of the density builder are real
      numbers ([R]).
    - A one-dimensional array is a [list]; an [(N1, N2)] array is a list of
      [N1] rows of length [N2]; an [(N, 3)] array is a list of triples. *)

From Stdlib Require Import ZArith QArith Qround Qabs Qpower Reals Lia Psatz List.
From stdpp Require Import base tactics option list strings.

Local Open Scope Z_scope.

(** ** Exceptions

    A Python call either returns or raises; a function that can raise
    returns a [result]. *)

Inductive exn : Type :=
  | NotImplementedError
  | ValueError
  | TypeError
  | ShapeMismatch.

Definition result (A : Type) : Type := exn + A.

#[global] Instance result_ret : MRet result := fun A x => inr x.
#[global] Instance result_bind : MBind result :=
  fun A B f m => match m with inl e => inl e | inr x => f x end.

Definition raise {A : Type} (e : exn) : result A := inl e.

(** An [(N1, N2)] array: [N1] rows of [N2] entries. *)
Abbreviation image A := (list (list A)) (only parsing).

(** A row of an [(N, 3)] coordinate array, and a [(3,)] box size. *)
Definition coord3 : Type := Q * Q * Q.

(** [c[:2]]: the first two components. *)
Definition first_two (c : coord3) : Q * Q := c.1.

(** ** Array primitives of the numerical library *)

Module Np.

(** [numpy.clip(v, lo, hi)] is [minimum(maximum(v, lo), hi)]. *)
Definition clip (v lo hi : Z) : Z := Z.min (Z.max v lo) hi.

(** [numpy.rint]: nearest integer, ties to the even neighbour. *)
Definition rint (q : Q) : Z :=
  let f := Qfloor q in
  match Qcompare (q - inject_Z f) (1 # 2) with
  | Lt => f
  | Gt => f + 1
  | Eq => if Z.even f then f else f + 1
  end.

(** [ravel_multi_index((x, y), (N1, N2), mode="clip")] for one index
    pair: both components are clipped to their axis, then flattened in
    row-major order. *)
Definition ravel_multi_index_clip (x y N1 N2 : Z) : Z :=
  clip x 0 (N1 - 1) * N2 + clip y 0 (N2 - 1).

Section Accumulate.
Context {V : Type} (vzero : V) (vadd : V -> V -> V).

(** One scatter-add of [bincount]: [out.at[clip(i, 0)].add(w)].
    Negative indices are clipped to [0]; an index past the end is
    dropped. *)
Definition scatter_add (out : list V) (iw : Z * V) : list V :=
  alter (fun v => vadd v iw.2) (Z.to_nat (Z.max iw.1 0)) out.

(** [jnp.bincount(x, weights=w, length=n)]; a [ValueError] when [x]
    and [w] differ in shape. *)
Definition bincount (x : list Z) (w : list V) (n : Z) : result (list V) :=
  if decide (length x = length w)
  then mret (fold_left scatter_add (zip x w) (replicate (Z.to_nat n) vzero))
  else raise ValueError.

(** The [(N1, N2)] array whose entry [(i, j)] is [f i j]. *)
Definition tabulate (N1 N2 : nat) (f : nat -> nat -> V) : image V :=
  (fun i => f i <$> seq 0 N2) <$> seq 0 N1.

(** [a.shape] of a two-dimensional array. *)
Definition image_shape (a : image V) : nat * nat :=
  (length a, match a with [] => 0%nat | row :: _ => length row end).

(** Every row of an [(N1, N2)] array has [N2] entries. *)
Definition has_shape (a : image V) (N1 N2 : nat) : Prop :=
  length a = N1 /\ Forall (fun row => length row = N2) a.

(** [a.reshape((N1, N2))] of a flat array of [N1 * N2] entries. *)
Definition reshape2 (a : list V) (N1 N2 : Z) : image V :=
  (fun i => take (Z.to_nat N2) (drop (i * Z.to_nat N2) a))
    <$> seq 0 (Z.to_nat N1).
End Accumulate.

(** [numpy.fft.fftshift] on one axis of [n] entries: a roll by [n // 2]
    (entry [i] moves to [i + n // 2] modulo [n]). *)
Definition fftshift1 {A : Type} (l : list A) : list A :=
  rotate (length l - length l / 2) l.

(** [numpy.fft.ifftshift] on one axis: a roll by [-(n // 2)]. *)
Definition ifftshift1 {A : Type} (l : list A) : list A :=
  rotate (length l / 2) l.

(** [fftshift] and [ifftshift] of a three-dimensional array shift every
    axis. *)
Definition fftshift {A : Type} (g : list (list (list A))) : list (list (list A)) :=
  fftshift1 ((fun plane : list (list A) =>
                fftshift1 ((fun row : list A => fftshift1 row) <$> plane)) <$> g).

Definition ifftshift {A : Type} (g : list (list (list A))) : list (list (list A)) :=
  ifftshift1 ((fun plane : list (list A) =>
                 ifftshift1 ((fun row : list A => ifftshift1 row) <$> plane)) <$> g).

End Np.

(** ** [project_with_binning] *)

Module Binning.

Section Binning.
Context {V : Type} (vzero : V) (vadd : V -> V -> V).

(** The flat bin of one point: lines 362-371 of the source. *)
Definition flat_coord (N1 N2 : Z) (c : coord3) : Z :=
  let '(cx, cy, _) := c in
  let x_coord := Np.rint cx + N1 / 2 in
  let y_coord := Np.rint cy + N2 / 2 in
  Np.ravel_multi_index_clip x_coord y_coord N1 N2.

Definition project_with_binning
    (density : list V) (coords : list coord3) (shape : Z * Z)
  : result (image V) :=
  let '(N1, N2) := shape in
  let flat_coords := flat_coord N1 N2 <$> coords in
  projection ← Np.bincount vzero vadd flat_coords density (N1 * N2);
  mret (Np.reshape2 projection N1 N2).

(** *** The histogram as the specification words it *)

(** The pixel a point falls in: round half to even, shift by half the
    axis length, clip to the boundary. *)
Definition pixel_of (N1 N2 : Z) (c : coord3) : Z * Z :=
  let '(cx, cy, _) := c in
  (Np.clip (Np.rint cx + N1 / 2) 0 (N1 - 1),
   Np.clip (Np.rint cy + N2 / 2) 0 (N2 - 1)).

(** Sum of the densities of the points that fall in pixel [(i, j)]. *)
Definition pixel_sum (N1 N2 : Z) (density : list V) (coords : list coord3)
    (i j : Z) : V :=
  fold_left
    (fun s cw => if decide (pixel_of N1 N2 cw.1 = (i, j)) then vadd s cw.2 else s)
    (zip coords density) vzero.

Definition histogram (N1 N2 : Z) (density : list V) (coords : list coord3)
  : image V :=
  (fun i => (fun j => pixel_sum N1 N2 density coords (Z.of_nat i) (Z.of_nat j))
              <$> seq 0 (Z.to_nat N2))
    <$> seq 0 (Z.to_nat N1).
End Binning.

End Binning.

(** ** The [cryojax.utils] interface

    [scattering.py] imports its array helpers from [..utils].  What the
    module needs of them is their signature, so they are the methods of a
    class.  [pad_kwargs] and [resize_kwargs] stand for the keyword arguments
    that [ImageConfig.pad], [downsample] and [upsample] pass through. *)

Class Utils (V : Type) : Type := {
  pad_kwargs : Type;
  resize_kwargs : Type;
  fftfreqs : Z * Z -> Q -> bool -> result (image (Q * Q));
  bound : list V -> list (Q * Q) -> Q * Q -> result (list V);
  crop : image V -> Z * Z -> result (image V);
  pad : image V -> Z * Z -> pad_kwargs -> result (image V);
  nufft : list V -> list (Q * Q) -> Q * Q -> Z * Z -> Q -> result (image V);
  integrate_gaussians :
    list V -> list (Q * Q) -> Q -> Z * Z -> Q -> result (image V);
  resize : image V -> Z * Z -> option bool -> resize_kwargs -> result (image V);
  fft : image V -> result (image V)
}.

(** ** [scattering.py] *)

Module Scattering.

(** Python's [int(x)] on a number: truncation toward zero. *)
Definition py_int (x : Q) : Z := Z.quot (Qnum x) (Z.pos (Qden x)).

(** A Python [float] is a binary64 number; it is represented by the
    rational it denotes.  The one floating-point operation of the module,
    the product [s * self.pad_scale], rounds its exact result:
    [float_round] is that rounding. *)
Class FloatMul : Type := float_round : Q -> Q.

(** What the rounding of a product is known to satisfy: it is monotone,
    and exact on the integers a float holds exactly. *)
Class FloatMulLaws `{F : FloatMul} : Prop := {
  float_round_mono :
    forall x y : Q, (x <= y)%Q -> (float_round x <= float_round y)%Q;
  float_round_int :
    forall z : Z, Z.abs z <= 2 ^ 53 -> (float_round (inject_Z z) == inject_Z z)%Q
}.

(** [s * self.pad_scale] for an integer [s]. *)
Definition scale_dim `{F : FloatMul} (s : Z) (pad_scale : Q) : Q :=
  float_round (inject_Z s * pad_scale).

Record ImageConfig : Type := mkImageConfig {
  shape : Z * Z;
  pixel_size : Q;
  padded_shape : Z * Z;
  freqs : image (Q * Q);
  padded_freqs : image (Q * Q);
  coords : image (Q * Q);
  padded_coords : image (Q * Q);
  pad_scale : Q
}.

(** The three concrete subclasses of [ScatteringConfig], each with the
    field it adds. *)
Inductive method : Type :=
  | FourierSliceScattering (order : Z)
  | NufftScattering (eps : Q)
  | GaussianScattering (scale : Q).

Record ScatteringConfig : Type := mkScatteringConfig {
  config : ImageConfig;
  variant : method
}.

Section WithUtils.
Context {V : Type} `{U : Utils V} `{F : FloatMul}.

(** [ImageConfig.__post_init__], run by the dataclass constructor on
    the fields [shape], [pixel_size] and [pad_scale]. *)
Definition __post_init__ (shape : Z * Z) (pixel_size pad_scale : Q)
  : result ImageConfig :=
  let padded_shape :=
    (py_int (scale_dim shape.1 pad_scale), py_int (scale_dim shape.2 pad_scale)) in
  freqs ← fftfreqs shape pixel_size false;
  padded_freqs ← fftfreqs padded_shape pixel_size false;
  coords ← fftfreqs shape pixel_size true;
  padded_coords ← fftfreqs padded_shape pixel_size true;
  mret (mkImageConfig shape pixel_size padded_shape
          freqs padded_freqs coords padded_coords pad_scale).

(** A [ScatteringConfig] subclass inherits the constructor and adds one
    field. *)
Definition new_scattering (m : method) (shape : Z * Z) (pixel_size pad_scale : Q)
  : result ScatteringConfig :=
  c ← __post_init__ shape pixel_size pad_scale;
  mret (mkScatteringConfig c m).

Definition ImageConfig_crop (self : ImageConfig) (img : image V) :=
  crop img (shape self).

Definition ImageConfig_pad (self : ImageConfig) (img : image V) (kwargs : pad_kwargs) :=
  pad img (padded_shape self) kwargs.

Definition ImageConfig_downsample
    (self : ImageConfig) (img : image V) (kwargs : resize_kwargs) :=
  resize img (shape self) (Some false) kwargs.

Definition ImageConfig_upsample
    (self : ImageConfig) (img : image V) (kwargs : resize_kwargs) :=
  resize img (padded_shape self) None kwargs.

Definition project_with_nufft
    (density : list V) (coordinates : list coord3) (box_size : coord3)
    (shape : Z * Z) (eps : Q) : result (image V) :=
  masked ← bound density (first_two <$> coordinates) (first_two box_size);
  projection ←
    nufft masked (first_two <$> coordinates) (first_two box_size) shape eps;
  mret projection.

Definition project_with_gaussians
    (density : list V) (coordinates : list coord3) (box_size : coord3)
    (shape : Z * Z) (pixel_size scale : Q) : result (image V) :=
  masked ← bound density (first_two <$> coordinates) (first_two box_size);
  projection ←
    integrate_gaussians masked (first_two <$> coordinates) scale shape pixel_size;
  fft projection.

(** One positional argument of a [scatter] call. *)
Inductive arg : Type :=
  | ArgDensity (density : list V)
  | ArgCoordinates (coordinates : list coord3)
  | ArgBox (box_size : coord3).

(** [self.scatter] on positional and keyword arguments, dispatched on the class of
    [self].  The call is given the object and returns it with the
    outcome: no method body assigns to [self]. *)
Definition scatter (self : ScatteringConfig)
    (args : list arg) (kwargs : list (string * arg))
  : ScatteringConfig * result (image V) :=
  match variant self with
  | FourierSliceScattering _ => (self, raise NotImplementedError)
  | NufftScattering eps =>
      match args, kwargs with
      | [ArgDensity d; ArgCoordinates c; ArgBox b], [] =>
          (self, project_with_nufft d c b (padded_shape (config self)) eps)
      | _, _ => (self, raise TypeError)
      end
  | GaussianScattering scale =>
      match args, kwargs with
      | [ArgDensity d; ArgCoordinates c; ArgBox b], [] =>
          (self, project_with_gaussians d c b (padded_shape (config self))
                   (pixel_size (config self))
                   (pixel_size (config self) * scale))
      | _, _ => (self, raise TypeError)
      end
  end.
End WithUtils.

End Scattering.

(** ** The helpers of [cryojax.utils], from their description

    What the specification says of the helpers, over an additive and
    multiplicative value type.  The numerical kernels the specification
    leaves open (the box test, the phases of the non-uniform transform, the
    pixel integral of a Gaussian, the transform pair behind resampling) are
    parameters. *)

Module SpecUtils.

Section SpecUtils.
Context {V : Type} (vzero : V) (vadd vmul : V -> V -> V).
Context (in_box : Q * Q -> Q * Q -> bool).
Context (phase : Q * Q -> Q * Q -> Z * Z -> nat -> nat -> V).
Context (pixel_integral : Q * Q -> Q -> Q -> Z * Z -> nat -> nat -> V).
Context (twiddle : nat * nat -> nat -> nat -> nat -> nat -> V).
Context (to_freq from_freq : image V -> image V).

(** Modelled from the spec: the sums of the transforms, the sum of [f a]
    over the entries [a] of [l], left to right. *)
Definition wsum {A : Type} (f : A -> V) (l : list A) : V :=
  fold_left (fun s a => vadd s (f a)) l vzero.

(** The entries of a list with their indices. *)
Definition enumerate {A : Type} (l : list A) : list (nat * A) :=
  zip (seq 0 (length l)) l.

(** Modelled from the spec: the coordinate of index [k] on an axis of [N]
    samples, centred on the grid midpoint; a length in real space, a
    frequency otherwise. *)
Definition axis_coordinate (real : bool) (pixel_size : Q) (N : Z) (k : nat) : Q :=
  let c := inject_Z (Z.of_nat k - N / 2) in
  if real then c * pixel_size else c / (inject_Z N * pixel_size).

(** Modelled from the spec: [fftfreqs], the grid utility that produces
    the frequency ([real = false]) or real-space ([real = true])
    coordinate array of a shape and pixel size. *)
Definition spec_fftfreqs (shape : Z * Z) (pixel_size : Q) (real : bool)
  : result (image (Q * Q)) :=
  mret (Np.tabulate (Z.to_nat shape.1) (Z.to_nat shape.2)
          (fun i j => (axis_coordinate real pixel_size shape.1 i,
                       axis_coordinate real pixel_size shape.2 j))).

(** Modelled from the spec: [bound], which restricts (bounds-masks) the
    points to those whose projected coordinate lies within the box; a
    masked point keeps its place with zero density.  A density and a
    coordinate array of different lengths are a shape mismatch. *)
Definition spec_bound (density : list V) (coords : list (Q * Q)) (box : Q * Q)
  : result (list V) :=
  if decide (length density = length coords)
  then mret (zip_with (fun d c => if in_box c box then d else vzero) density coords)
  else raise ShapeMismatch.

(** Modelled from the spec: [nufft], the non-uniform discrete Fourier
    transform of the point amplitudes onto a uniform grid of the given
    shape: each output entry is the sum over the points of amplitude
    times phase. *)
Definition spec_nufft (masked : list V) (coords : list (Q * Q)) (box : Q * Q)
    (shape : Z * Z) (eps : Q) : result (image V) :=
  mret (Np.tabulate (Z.to_nat shape.1) (Z.to_nat shape.2)
          (fun k1 k2 =>
             wsum (fun dc => vmul dc.1 (phase dc.2 box shape k1 k2))
                  (zip masked coords))).

(** Modelled from the spec: [integrate_gaussians], which gives each
    output pixel the sum over the points of the density times the
    integral of the point's Gaussian over that pixel. *)
Definition spec_integrate_gaussians (masked : list V) (coords : list (Q * Q))
    (scale : Q) (shape : Z * Z) (pixel_size : Q) : result (image V) :=
  mret (Np.tabulate (Z.to_nat shape.1) (Z.to_nat shape.2)
          (fun i j =>
             wsum (fun dc => vmul dc.1 (pixel_integral dc.2 scale pixel_size shape i j))
                  (zip masked coords))).

(** Modelled from the spec: [fft], the forward transform of a real-space
    image to Fourier space, a linear combination of the pixels. *)
Definition spec_fft (img : image V) : result (image V) :=
  let sh := Np.image_shape img in
  mret (Np.tabulate sh.1 sh.2
          (fun k1 k2 =>
             wsum (fun ir =>
                     wsum (fun jv => vmul jv.2 (twiddle sh k1 k2 ir.1 jv.1))
                          (enumerate ir.2))
                  (enumerate img))).

(** Modelled from the spec: the leading margin of a centred window of
    [n] entries in [m]; [crop] and [pad] both centre with it. *)
Definition offset (m n : nat) : nat := ((m - n) / 2)%nat.

(** Modelled from the spec: the centred [n] entries of a list. *)
Definition crop1 {A : Type} (n : nat) (l : list A) : list A :=
  take n (drop (offset (length l) n) l).

(** Modelled from the spec: a list of [m] entries with [l] at margin [o];
    entry [i] of the border is [fill i]. *)
Definition pad1 {A : Type} (o m : nat) (fill : nat -> A) (l : list A) : list A :=
  (fun i => if decide (o <= i)%nat then default (fill i) (l !! (i - o)%nat) else fill i)
    <$> seq 0 m.

(** Modelled from the spec: [crop], the image restricted to a shape,
    centred. *)
Definition spec_crop (img : image V) (shape : Z * Z) : result (image V) :=
  let sh := Np.image_shape img in
  if decide (0 <= shape.1 <= Z.of_nat sh.1 /\ 0 <= shape.2 <= Z.of_nat sh.2)
  then mret (crop1 (Z.to_nat shape.2) <$> crop1 (Z.to_nat shape.1) img)
  else raise ValueError.

(** Modelled from the spec: [pad], the image expanded to a shape,
    centred; the caller-selected mode decides the content of the
    border, given here entry by entry. *)
Definition spec_pad (img : image V) (shape : Z * Z) (mode : nat -> nat -> V)
  : result (image V) :=
  let sh := Np.image_shape img in
  let m1 := Z.to_nat shape.1 in
  let m2 := Z.to_nat shape.2 in
  if decide (Z.of_nat sh.1 <= shape.1 /\ Z.of_nat sh.2 <= shape.2)
  then mret (pad1 (offset m1 sh.1) m1 (fun i => mode i <$> seq 0 m2)
               (imap (fun i row => pad1 (offset m2 sh.2) m2 (mode (offset m1 sh.1 + i)%nat) row)
                     img))
  else raise ValueError.

(** Modelled from the spec: one axis of a spectrum brought to [n]
    entries, truncated when it is longer, zero-padded when it is shorter,
    centred either way. *)
Definition fit1 {A : Type} (fill : A) (n : nat) (l : list A) : list A :=
  if decide (n <= length l)%nat
  then crop1 n l
  else pad1 (offset n (length l)) n (fun _ => fill) l.

(** Modelled from the spec: [resize], resampling through the frequency
    domain: the spectrum of the image is truncated (downsampling, no
    anti-aliasing filter) or zero-padded (upsampling) to the target
    shape and transformed back. *)
Definition spec_resize (img : image V) (shape : Z * Z)
    (antialias : option bool) (kwargs : unit) : result (image V) :=
  let n1 := Z.to_nat shape.1 in
  let n2 := Z.to_nat shape.2 in
  mret (from_freq
          (fit1 (replicate n2 vzero) n1 (fit1 vzero n2 <$> to_freq img))).

(** The helpers, as an instance of the interface. *)
Definition spec_utils : Utils V := {|
  pad_kwargs := nat -> nat -> V;
  resize_kwargs := unit;
  fftfreqs := spec_fftfreqs;
  bound := spec_bound;
  crop := spec_crop;
  pad := spec_pad;
  nufft := spec_nufft;
  integrate_gaussians := spec_integrate_gaussians;
  resize := spec_resize;
  fft := spec_fft
|}.
End SpecUtils.

End SpecUtils.

(** ** Rounding to binary64

    Round-to-nearest, ties to even, of a rational to a number with a
    significand of 53 bits (overflow and the subnormal range are left
    out). *)

Module Float64.

(** The exponent [e] with [2^52 <= |q| / 2^e < 2^53], for [q <> 0]. *)
Definition exponent (q : Q) : Z :=
  let a := Qabs q in
  let e0 := Z.log2 (Qnum a) - Z.log2 (Z.pos (Qden a)) - 52 in
  if Qle_bool (inject_Z (2 ^ 52)) (a * Qpower 2 (- e0)) then e0 else e0 - 1.

Definition round_b64 (q : Q) : Q :=
  if Qeq_bool q 0 then 0%Q
  else
    let e := exponent q in
    (inject_Z (Np.rint (q * Qpower 2 (- e))) * Qpower 2 e)%Q.

(** The product as binary64 arithmetic computes it. *)
Definition binary64 : Scattering.FloatMul := round_b64.

(** The product in exact arithmetic. *)
Definition exact : Scattering.FloatMul := fun q => q.

End Float64.

(** ** An instance over the integers

    Integer densities, a box centred on the origin and closed on its low
    side, unit kernels and the identity as transform pair: enough to run the
    definitions on small inputs. *)

Module IntUtils.

Definition in_centred_box (c box : Q * Q) : bool :=
  Qle_bool (- (box.1 / 2)) c.1 && negb (Qle_bool (box.1 / 2) c.1)
  && Qle_bool (- (box.2 / 2)) c.2 && negb (Qle_bool (box.2 / 2) c.2).

Definition int_utils : Utils Z :=
  SpecUtils.spec_utils 0 Z.add Z.mul in_centred_box
    (fun _ _ _ _ _ => 1) (fun _ _ _ _ _ _ => 1) (fun _ _ _ _ _ => 1)
    (fun img => img) (fun img => img).

End IntUtils.

(** ** Voxel grids from atoms

    The density builder and the two voxel potentials that
    [tests/test_voxels_from_atoms.py] exercises, from their description,
    over the real numbers. *)

Abbreviation grid3 A := (list (list (list A))) (only parsing).

Module Voxels.
Local Open Scope R_scope.

Definition vec3 : Type := R * R * R.

(** A function applied to every entry of a three-dimensional array. *)
Definition map3 {A B : Type} (f : A -> B) (g : grid3 A) : grid3 B :=
  (fun plane : list (list A) => (fun row : list A => f <$> row) <$> plane) <$> g.

(** The sum of a list of reals. *)
Definition Rsum (l : list R) : R := foldr Rplus 0 l.



(** An [(n1, n2, n3)] array: [n1] planes of [n2] rows of [n3] entries. *)
Definition has_shape3 {A : Type} (n : nat * nat * nat) (g : grid3 A) : Prop :=
  length g = n.1.1
  /\ Forall (fun plane => length plane = n.1.2
                          /\ Forall (fun row => length row = n.2) plane) g.

(** Modelled from the spec: [|r - pos|^2]. *)
Definition sq_dist (r pos : vec3) : R :=
  (r.1.1 - pos.1.1) ^ 2 + (r.1.2 - pos.1.2) ^ 2 + (r.2 - pos.2) ^ 2.

(** Modelled from the spec: one Gaussian of a form factor, evaluated at
    [r]: [a (4 pi / b)^(3/2) exp(-4 pi^2 |r - pos|^2 / b)]. *)
Definition gaussian_term (r pos : vec3) (a b : R) : R :=
  a * (Rpower (4 * PI / b) (3 / 2) * exp (- (4 * PI ^ 2 * sq_dist r pos / b))).

(** An atom cloud: positions with their [a] and [b] coefficients. *)
Definition atoms : Type := list (vec3 * (list R * list R)).

(** Modelled from the spec: the density at [r], the sum over the atoms of
    the sum of their Gaussians. *)
Definition density (cloud : atoms) (r : vec3) : R :=
  Rsum ((fun atom => Rsum (zip_with (gaussian_term r atom.1) atom.2.1 atom.2.2))
          <$> cloud).


(** Modelled from the spec: the coordinate of voxel [i] on an axis of [n]
    voxels, centred on the grid midpoint. *)
Definition axis_coordinate (voxel_size : R) (n i : nat) : R :=
  (INR i - INR (n / 2)) * voxel_size.




End Voxels.

(** ** The two voxel potentials *)

Module Potentials.
Import Voxels.
Local Open Scope R_scope.

(** A complex number, as real and imaginary part. *)
Definition C : Type := R * R.
Definition of_real (x : R) : C := (x, 0).
Definition re (z : C) : R := z.1.


Record FourierVoxelGridPotential : Type := mkFourier {
  fourier_voxel_grid : grid3 C;
  fourier_voxel_size : R
}.



Section Potentials.
(** The discrete Fourier transform pair of the array library
    ([jnp.fft.fftn], [jnp.fft.ifftn]), zero frequency at the array origin. *)
Context (fftn_raw ifftn_raw : grid3 C -> grid3 C).
(** The form-factor table: the [a] and [b] coefficients of an element. *)
Context (form_factors : Z -> list R * list R).



(** Modelled from the spec: [FourierVoxelGridPotential.from_real_voxel_grid],
    the Fourier-space representation, which stores the centred discrete
    Fourier transform [fftshift(FFT(ifftshift(grid)))] of a real grid. *)
Definition FourierVoxelGridPotential_from_real_voxel_grid
    (real_voxel_grid : grid3 R) (voxel_size : R) : FourierVoxelGridPotential :=
  mkFourier
    (Np.fftshift (fftn_raw (Np.ifftshift (map3 of_real real_voxel_grid))))
    voxel_size.


(** Modelled from the spec: [cryojax.image.ifftn], the inverse-transform
    helper of the test.  The centred pair keeps zero frequency at the array
    origin for the raw transform and the grid midpoint at the centre of the
    real grid, so the helper re-centres the raw inverse transform. *)
Definition ifftn (ft : grid3 C) : grid3 C := Np.fftshift (ifftn_raw ft).

End Potentials.

End Potentials.

(** ** The discrete Fourier transform

    [jnp.fft.fftn] and [jnp.fft.ifftn] on three-dimensional arrays, zero
    frequency at the array origin:
    [fftn(z)_k = sum_j z_j exp(-2 pi i (j1 k1 / n1 + j2 k2 / n2 + j3 k3 / n3))],
    and [ifftn] the same sum with the opposite sign in the exponent, divided
    by the number of entries. *)

Module Fft.
Import Voxels Potentials.
Local Open Scope R_scope.

Definition Czero : C := (0, 0).
Definition Cadd (z w : C) : C := (z.1 + w.1, z.2 + w.2).
Definition Cmul (z w : C) : C := (z.1 * w.1 - z.2 * w.2, z.1 * w.2 + z.2 * w.1).
Definition Cscale (c : R) (z : C) : C := (c * z.1, c * z.2).

(** [exp(sign * 2 pi i m / n)]. *)
Definition phase (sign : R) (n m : nat) : C :=
  (cos (2 * PI * INR m / INR n), sign * sin (2 * PI * INR m / INR n)).

Definition Csum (l : list C) : C := foldr Cadd Czero l.

(** The sum of [f j] over [j < n], for complex and for real terms. *)
Definition sum_lt (n : nat) (f : nat -> C) : C := Csum (f <$> seq 0 n).

(** The entry at a multi-index. *)
Definition get3 (z : grid3 C) (j : nat * nat * nat) : C :=
  match z !! j.1.1 with
  | Some plane =>
      match plane !! j.1.2 with
      | Some row => default Czero (row !! j.2)
      | None => Czero
      end
  | None => Czero
  end.

(** [z.shape]. *)
Definition shape3 {A : Type} (z : grid3 A) : nat * nat * nat :=
  match z with
  | [] => (0, 0, 0)%nat
  | plane :: _ =>
      (length z, length plane, match plane with [] => 0%nat | row :: _ => length row end)
  end.

(** The array of shape [n] whose entry at [k] is [f k]. *)
Definition tabulate3 {A : Type} (n : nat * nat * nat) (f : nat * nat * nat -> A) : grid3 A :=
  (fun k1 => (fun k2 => (fun k3 => f (k1, k2, k3)) <$> seq 0 n.2) <$> seq 0 n.1.2)
    <$> seq 0 n.1.1.


Definition in_range (n j : nat * nat * nat) : Prop :=
  (j.1.1 < n.1.1 /\ j.1.2 < n.1.2 /\ j.2 < n.2)%nat.

Definition sum3_lt (n : nat * nat * nat) (f : nat * nat * nat -> C) : C :=
  sum_lt n.1.1 (fun j1 => sum_lt n.1.2 (fun j2 => sum_lt n.2 (fun j3 => f (j1, j2, j3)))).

Definition phase3 (sign : R) (n j k : nat * nat * nat) : C :=
  Cmul (Cmul (phase sign n.1.1 (j.1.1 * k.1.1)) (phase sign n.1.2 (j.1.2 * k.1.2)))
       (phase sign n.2 (j.2 * k.2)).

Definition dft3 (sign scale : R) (z : grid3 C) : grid3 C :=
  let n := shape3 z in
  tabulate3 n (fun k => Cscale scale (sum3_lt n (fun j => Cmul (get3 z j) (phase3 sign n j k)))).


(** [jnp.fft.ifftn]. *)
Definition ifftn (z : grid3 C) : grid3 C :=
  let n := shape3 z in dft3 1 (/ (INR n.1.1 * INR n.1.2 * INR n.2)) z.

End Fft.

(** ** Entries and sums of arrays *)

Module Arrays.

(** [a[i, j]] and [a[i, j, k]], when the indices are in range. *)
Definition entry2 {T : Type} (a : image T) (i j : nat) : option T :=
  match a !! i with
  | Some row => row !! j
  | None => None
  end.

Definition entry3 {T : Type} (a : list (list (list T))) (i j k : nat) : option T :=
  match a !! i with
  | Some plane => entry2 plane j k
  | None => None
  end.

Section Total.
Context {V : Type} (vzero : V) (vadd : V -> V -> V).

(** [jnp.sum] of a one-dimensional array and of an image. *)
Definition vsum (l : list V) : V := foldr vadd vzero l.
Definition image_sum (a : image V) : V := vsum (vsum <$> a).

(** The entrywise sum [a + b] of two images of one shape. *)
Definition image_add (a b : image V) : image V := zip_with (zip_with vadd) a b.
End Total.
End Arrays.

(** ** [project_with_slice]

    The function takes a density of shape [(N1, N2, N3)] and a coordinate
    array of shape [(M1, M2, M3, 3)], here a three-dimensional array of
    coordinate vectors.  [cryojax.utils.map_coordinates] is a parameter;
    entries are multiplied by [vmul], and [of_int] turns an axis length
    into an entry. *)

Module Slice.
Import Voxels Arrays.

(** What [project_with_slice] can raise: an index out of bounds, or what
    [map_coordinates] raised. *)
Inductive slice_exn : Type :=
  | IndexError
  | Raised (e : exn).

Definition slice_result (A : Type) : Type := slice_exn + A.

(** [a[:, :, 0]]: the first entry along the third axis; an [IndexError]
    when that axis is empty. *)
Definition first_entries {T : Type} (a : grid3 T) : slice_result (image T) :=
  match mapM (mapM head) a with
  | Some plane => inr plane
  | None => inl IndexError
  end.

(** [jnp.fft.fftshift] of a two-dimensional array. *)
Definition fftshift2 {T : Type} (a : image T) : image T :=
  Np.fftshift1 (Np.fftshift1 <$> a).

(** The entries at the middle index [n // 2] of the third axis. *)
Definition central_plane {T : Type} (a : grid3 T) : image (option T) :=
  (fun plane : list (list T) =>
     (fun row : list T => row !! (length row / 2)%nat) <$> plane) <$> a.

Section Slice.
Context {V : Type} (vmul : V -> V -> V) (of_int : Z -> V).
Context {kwargs : Type}.
(** [cryojax.utils.map_coordinates(input, coordinates, **kwargs)]. *)
Context (map_coordinates : grid3 V -> list (grid3 V) -> kwargs -> result (grid3 V)).

(** One coordinate vector of [coordinates * box_shape * pixel_size]. *)
Definition scale_coordinate (n : nat * nat * nat) (pixel_size : V) (t : V * V * V)
  : V * V * V :=
  (vmul (vmul t.1.1 (of_int (Z.of_nat n.1.1))) pixel_size,
   vmul (vmul t.1.2 (of_int (Z.of_nat n.1.2))) pixel_size,
   vmul (vmul t.2 (of_int (Z.of_nat n.2))) pixel_size).

(** [ifftshift] along the last axis, of three entries. *)
Definition ifftshift_vector (t : V * V * V) : V * V * V :=
  match Np.ifftshift1 [t.1.1; t.1.2; t.2] with
  | [a; b; c] => (a, b, c)
  | _ => t
  end.

(** [jnp.fft.ifftshift] of an [(M1, M2, M3, 3)] array: every axis is
    shifted. *)
Definition ifftshift4 (c : grid3 (V * V * V)) : grid3 (V * V * V) :=
  Np.ifftshift (map3 ifftshift_vector c).

(** [transpose(expand_dims(plane, axis=2), axes=[3, 0, 1, 2])]: the three
    component arrays, each of shape [(M1, M2, 1)]. *)
Definition component_arrays (plane : image (V * V * V)) : list (grid3 V) :=
  [ (fun row : list (V * V * V) => (fun t : V * V * V => [t.1.1]) <$> row) <$> plane;
    (fun row : list (V * V * V) => (fun t : V * V * V => [t.1.2]) <$> row) <$> plane;
    (fun row : list (V * V * V) => (fun t : V * V * V => [t.2]) <$> row) <$> plane ].

(** Lines 234-241: the coordinate array handed to [map_coordinates], of
    shape [(3, M1, M2, 1)].  [Fft.shape3 density] is [density.shape]. *)
Definition sampling_coordinates
    (density : grid3 V) (coordinates : grid3 (V * V * V)) (pixel_size : V)
  : slice_result (list (grid3 V)) :=
  let n := Fft.shape3 density in
  let coordinates := ifftshift4 (map3 (scale_coordinate n pixel_size) coordinates) in
  match first_entries coordinates with
  | inl e => inl e
  | inr plane => inr (component_arrays plane)
  end.

(** Lines 234-243.  An error of [map_coordinates] is passed on; the last
    axis of its result, of one entry, is dropped by [[..., 0]]. *)
Definition project_with_slice
    (density : grid3 V) (coordinates : grid3 (V * V * V)) (pixel_size : V)
    (kw : kwargs) : slice_result (image V) :=
  match sampling_coordinates density coordinates pixel_size with
  | inl e => inl e
  | inr coordinates =>
      match map_coordinates (Np.ifftshift density) coordinates kw with
      | inl e => inl (Raised e)
      | inr out =>
          match first_entries out with
          | inl e => inl e
          | inr projection => inr (fftshift2 projection)
          end
      end
  end.
End Slice.
End Slice.

(* ================================================================== *)
(** * Properties *)
(* ================================================================== *)

(** ** Rounding and flattening *)

Module NpFacts.
Import Np.

Lemma clip_range v lo hi : lo <= hi -> lo <= clip v lo hi <= hi.
Proof. unfold clip. lia. Qed.

Lemma clip_inside v lo hi : lo <= v <= hi -> clip v lo hi = v.
Proof. unfold clip. lia. Qed.

Lemma clip_below v lo hi : lo <= hi -> v <= lo -> clip v lo hi = lo.
Proof. unfold clip. lia. Qed.

Lemma clip_above v lo hi : lo <= hi -> hi <= v -> clip v lo hi = hi.
Proof. unfold clip. lia. Qed.

(** The fractional part of a rational lies in [[0, 1)]. *)
Lemma frac_range q :
  (0 <= q - inject_Z (Qfloor q))%Q /\ (q - inject_Z (Qfloor q) < 1)%Q.
Proof.
  pose proof (Qfloor_le q) as Hle. pose proof (Qlt_floor q) as Hlt.
  rewrite inject_Z_plus in Hlt. change (inject_Z 1) with 1%Q in Hlt.
  split; lra.
Qed.

(** [rint] returns a nearest integer ... *)
Lemma rint_nearest q : (Qabs.Qabs (q - inject_Z (rint q)) <= 1 # 2)%Q.
Proof.
  destruct (frac_range q) as [H0 H1].
  apply Qabs.Qabs_Qle_condition. unfold rint.
  destruct (Qcompare_spec (q - inject_Z (Qfloor q)) (1 # 2)) as [He|Hl|Hg];
    [destruct (Z.even (Qfloor q))| |];
    rewrite ?inject_Z_plus; change (inject_Z 1) with 1%Q; lra.
Qed.

(** ... and on a tie, the even one. *)
Lemma rint_tie_even q :
  (Qabs.Qabs (q - inject_Z (rint q)) == 1 # 2)%Q -> Z.even (rint q) = true.
Proof.
  destruct (frac_range q) as [H0 H1]. unfold rint.
  destruct (Qcompare_spec (q - inject_Z (Qfloor q)) (1 # 2)) as [He|Hl|Hg].
  - destruct (Z.even (Qfloor q)) eqn:Hev; [done|].
    intros _. rewrite Z.even_add, Hev. done.
  - rewrite Qabs.Qabs_pos by done. lra.
  - rewrite inject_Z_plus. change (inject_Z 1) with 1%Q.
    rewrite Qabs.Qabs_neg by lra. lra.
Qed.
End NpFacts.

(** ** The histogram of [project_with_binning] *)

Module BinningFacts.
Import Np Binning.

Section Facts.
Context {V : Type} (vzero : V) (vadd : V -> V -> V).

Lemma scatter_add_length (out : list V) iw :
  length (scatter_add vadd out iw) = length out.
Proof. unfold scatter_add. apply length_alter. Qed.

(** After a run of scatter-adds, slot [k] holds its old content plus,
    in order, the weights that were sent to [k]. *)
Lemma fold_scatter_lookup (pts : list (Z * V)) :
  forall (out : list V) (k : nat) (a : V),
    out !! k = Some a ->
    fold_left (scatter_add vadd) pts out !! k
    = Some (fold_left
              (fun s iw => if decide (Z.to_nat (Z.max iw.1 0) = k)
                           then vadd s iw.2 else s) pts a).
Proof.
  induction pts as [|[i w] pts IH]; intros out k a Hk; simpl; [done|].
  apply IH. unfold scatter_add; simpl.
  case_decide as Hi.
  - subst k. rewrite list_lookup_alter_eq, Hk. done.
  - rewrite list_lookup_alter_ne by done. done.
Qed.

(** Row [i], column [j] of a reshaped array is entry [i * N2 + j]. *)
Lemma reshape2_row (a : list V) (N1 N2 : Z) (i : nat) :
  (i < Z.to_nat N1)%nat ->
  reshape2 a N1 N2 !! i
  = Some (take (Z.to_nat N2) (drop (i * Z.to_nat N2) a)).
Proof.
  intros Hi. unfold reshape2. rewrite list_lookup_fmap.
  rewrite lookup_seq_lt by done. done.
Qed.

(** Two points fall in the same flat bin exactly when they fall in the
    same pixel. *)
Lemma flat_coord_pixel (N1 N2 : Z) (c : coord3) (i j : nat) :
  0 < N1 -> 0 < N2 -> (i < Z.to_nat N1)%nat -> (j < Z.to_nat N2)%nat ->
  Z.to_nat (Z.max (flat_coord N1 N2 c) 0) = (i * Z.to_nat N2 + j)%nat
  <-> pixel_of N1 N2 c = (Z.of_nat i, Z.of_nat j).
Proof.
  intros H1 H2 Hi Hj. destruct c as [[cx cy] cz]. simpl.
  unfold ravel_multi_index_clip.
  pose proof (NpFacts.clip_range (rint cx + N1 / 2) 0 (N1 - 1)) as Hx.
  pose proof (NpFacts.clip_range (rint cy + N2 / 2) 0 (N2 - 1)) as Hy.
  set (x := clip _ 0 (N1 - 1)) in *. set (y := clip _ 0 (N2 - 1)) in *.
  assert (Hi' : 0 <= Z.of_nat i < N1) by lia.
  assert (Hj' : 0 <= Z.of_nat j < N2) by lia.
  replace (i * Z.to_nat N2 + j)%nat
    with (Z.to_nat (Z.of_nat i * N2 + Z.of_nat j)) by nia.
  set (I := Z.of_nat i) in *. set (J := Z.of_nat j) in *.
  split.
  - intros He.
    assert (Hflat : x * N2 + y = I * N2 + J) by nia.
    assert (x = I) by (destruct (Z.lt_trichotomy x I) as [?|[?|?]]; nia).
    assert (y = J) by nia. congruence.
  - intros [= Hx' Hy']. rewrite Hx', Hy'. f_equal. nia.
Qed.

Lemma pixel_sum_flat (N1 N2 : Z) (i j : nat) :
  0 < N1 -> 0 < N2 -> (i < Z.to_nat N1)%nat -> (j < Z.to_nat N2)%nat ->
  forall (coords : list coord3) (density : list V) (a : V),
    fold_left
      (fun s iw => if decide (Z.to_nat (Z.max iw.1 0) = (i * Z.to_nat N2 + j)%nat)
                   then vadd s iw.2 else s)
      (zip (flat_coord N1 N2 <$> coords) density) a
    = fold_left
        (fun s cw => if decide (pixel_of N1 N2 cw.1 = (Z.of_nat i, Z.of_nat j))
                     then vadd s cw.2 else s)
        (zip coords density) a.
Proof.
  intros H1 H2 Hi Hj.
  induction coords as [|c coords IH]; intros [|w density] a; simpl; try done.
  rewrite IH.
  pose proof (flat_coord_pixel N1 N2 c i j H1 H2 Hi Hj) as Hiff.
  repeat case_decide; tauto.
Qed.

End Facts.

(** The flat-index computation itself, run on three points. *)
Example project_with_binning_run :
  project_with_binning 0 Z.add [5; 7; 11]
    [((-1)%Q, 0%Q, 0%Q); ((1 # 2)%Q, (-3 # 2)%Q, 9%Q); (40%Q, 40%Q, 0%Q)] (2, 3)
  = inr [[0; 5; 0]; [7; 0; 11]]
  /\ project_with_binning 0 Z.add [5; 7] [((-1)%Q, 0%Q, 0%Q)] (2, 3)
     = raise ValueError.
Proof. split; vm_compute; reflexivity. Qed.

End BinningFacts.

(** ** Rounding to binary64 satisfies the laws of a rounding *)

Module Float64Facts.
Import Np Scattering Float64.
Local Open Scope Q_scope.

Lemma pow2_pos (z : Z) : 0 < 2 ^ z.
Proof. apply Qpower_0_lt. reflexivity. Qed.

Lemma pow2_add (a b : Z) : 2 ^ (a + b) == 2 ^ a * 2 ^ b.
Proof. apply Qpower_plus. discriminate. Qed.

Lemma pow2_cancel (z : Z) : 2 ^ (- z) * 2 ^ z == 1.
Proof. rewrite <- pow2_add. replace (- z + z)%Z with 0%Z by lia. reflexivity. Qed.

Lemma pow2_succ (z : Z) : 2 ^ (z + 1) == 2 * 2 ^ z.
Proof. rewrite pow2_add. change (2 ^ 1) with 2. ring. Qed.

Lemma pow2_inject (z : Z) : (0 <= z)%Z -> 2 ^ z == inject_Z (2 ^ z).
Proof. intros Hz. symmetry. apply (Zpower_Qpower 2 z Hz). Qed.

Lemma pow2_le (a b : Z) : (a <= b)%Z -> 2 ^ a <= 2 ^ b.
Proof. intros Hab. apply Qpower_le_compat_l; [done | discriminate]. Qed.

(** Round half to even is the only integer within a half of its argument
    that is even on a tie. *)
Lemma rint_unique (x : Q) (k : Z) :
  Qabs (x - inject_Z k) <= 1 # 2 ->
  (Qabs (x - inject_Z k) == 1 # 2 -> Z.even k = true) ->
  rint x = k.
Proof.
  intros Hk Hek.
  pose proof (NpFacts.rint_nearest x) as Hr.
  pose proof (NpFacts.rint_tie_even x) as Her.
  apply Qabs_Qle_condition in Hk, Hr.
  destruct (Z.lt_trichotomy (rint x) k) as [Hlt|[Heq|Hgt]]; [|done|].
  - assert (Hk1 : (rint x + 1 <= k)%Z) by lia.
    rewrite Zle_Qle in Hk1. rewrite inject_Z_plus in Hk1.
    change (inject_Z 1) with 1 in Hk1.
    assert (Hx : x - inject_Z (rint x) == 1 # 2) by lra.
    assert (Hx' : x - inject_Z k == - (1 # 2)) by lra.
    assert (k = rint x + 1)%Z.
    { apply Z.le_antisymm; [|lia]. rewrite Zle_Qle, inject_Z_plus.
      change (inject_Z 1) with 1. lra. }
    assert (Z.even (rint x) = true) by (apply Her; rewrite Hx; reflexivity).
    assert (Z.even k = true) by (apply Hek; rewrite Hx'; reflexivity).
    subst k. rewrite Z.even_add in *. destruct (Z.even (rint x)); discriminate.
  - assert (Hk1 : (k + 1 <= rint x)%Z) by lia.
    rewrite Zle_Qle in Hk1. rewrite inject_Z_plus in Hk1.
    change (inject_Z 1) with 1 in Hk1.
    assert (Hx : x - inject_Z (rint x) == - (1 # 2)) by lra.
    assert (Hx' : x - inject_Z k == 1 # 2) by lra.
    assert (rint x = k + 1)%Z.
    { apply Z.le_antisymm; [|lia]. rewrite Zle_Qle, inject_Z_plus.
      change (inject_Z 1) with 1. lra. }
    assert (Z.even (rint x) = true) by (apply Her; rewrite Hx; reflexivity).
    assert (Z.even k = true) by (apply Hek; rewrite Hx'; reflexivity).
    rewrite H in *. rewrite Z.even_add in *. destruct (Z.even k); discriminate.
Qed.

Lemma rint_inject (z : Z) : rint (inject_Z z) = z.
Proof.
  assert (H0 : inject_Z z - inject_Z z == 0) by ring.
  apply rint_unique; rewrite H0.
  - discriminate.
  - intros H. discriminate H.
Qed.

Lemma rint_opp (x : Q) : rint (- x) = (- rint x)%Z.
Proof.
  pose proof (NpFacts.rint_nearest x) as Hr.
  pose proof (NpFacts.rint_tie_even x) as Her.
  assert (He : Qabs (- x - inject_Z (- rint x)) == Qabs (x - inject_Z (rint x))).
  { rewrite inject_Z_opp.
    assert (H0 : - x - - inject_Z (rint x) == - (x - inject_Z (rint x))) by ring.
    rewrite H0. apply Qabs_opp. }
  apply rint_unique.
  - by rewrite He.
  - rewrite He. intros H. rewrite Z.even_opp. by apply Her.
Qed.

Lemma rint_proper (x y : Q) : x == y -> rint x = rint y.
Proof.
  intros Hxy. apply rint_unique.
  - rewrite Hxy. apply NpFacts.rint_nearest.
  - rewrite Hxy. apply NpFacts.rint_tie_even.
Qed.

Lemma rint_mono (x y : Q) : x <= y -> (rint x <= rint y)%Z.
Proof.
  intros Hxy.
  pose proof (NpFacts.rint_nearest x) as Hx. pose proof (NpFacts.rint_nearest y) as Hy.
  apply Qabs_Qle_condition in Hx, Hy.
  destruct (Z_le_gt_dec (rint x) (rint y)) as [|Hgt]; [done|].
  assert (H1 : (rint y + 1 <= rint x)%Z) by lia.
  rewrite Zle_Qle in H1. rewrite inject_Z_plus in H1. change (inject_Z 1) with 1 in H1.
  assert (Heq : x == y) by lra.
  rewrite (rint_proper x y Heq) in Hgt. lia.
Qed.

Lemma log2_bounds (n : Z) :
  (0 < n)%Z ->
  2 ^ Z.log2 n <= inject_Z n /\ inject_Z n < 2 * 2 ^ Z.log2 n.
Proof.
  intros Hn. destruct (Z.log2_spec n Hn) as [Hlo Hhi].
  pose proof (Z.log2_nonneg n) as Hnn.
  rewrite (pow2_inject (Z.log2 n)) by done.
  split.
  - by rewrite <- Zle_Qle.
  - change 2 with (inject_Z 2) at 1. rewrite <- inject_Z_mult, <- Zlt_Qlt.
    rewrite Z.pow_succ_r in Hhi by done. done.
Qed.

(** Before the correction step, the scaled magnitude lies between [2^51]
    and [2^53]. *)
Lemma scaled_estimate (a : Q) :
  0 < a ->
  let e0 := (Z.log2 (Qnum a) - Z.log2 (Z.pos (Qden a)) - 52)%Z in
  inject_Z (2 ^ 51) < a * 2 ^ (- e0) /\ a * 2 ^ (- e0) < inject_Z (2 ^ 53).
Proof.
  intros Ha e0. destruct a as [n d]. cbn [Qnum Qden] in e0.
  assert (Hn : (0 < n)%Z) by (unfold Qlt in Ha; simpl in Ha; lia).
  destruct (log2_bounds n Hn) as [Hn1 Hn2].
  destruct (log2_bounds (Z.pos d) eq_refl) as [Hd1 Hd2].
  set (ln := Z.log2 n) in *. set (ld := Z.log2 (Z.pos d)) in *.
  pose proof (pow2_pos ln) as Hu. pose proof (pow2_pos ld) as Hv.
  pose proof (pow2_pos (- ln)) as Hw. pose proof (pow2_cancel ln) as Hwu.
  assert (HD : 0 < inject_Z (Z.pos d)) by reflexivity.
  assert (Hi : 0 < / inject_Z (Z.pos d)) by (by apply Qinv_lt_0_compat).
  assert (HiD : / inject_Z (Z.pos d) * inject_Z (Z.pos d) == 1)
    by (rewrite Qmult_comm; apply Qmult_inv_r; discriminate).
  assert (He : 2 ^ (- e0) == 2 ^ (- ln) * 2 ^ ld * inject_Z (2 ^ 52)).
  { unfold e0. replace (- (ln - ld - 52))%Z with (- ln + ld + 52)%Z by lia.
    rewrite !pow2_add. rewrite (pow2_inject 52) by lia. reflexivity. }
  assert (Hq : n # d == inject_Z n * / inject_Z (Z.pos d)) by apply Qmake_Qdiv.
  set (N := inject_Z n) in *. set (D := inject_Z (Z.pos d)) in *.
  set (w := 2 ^ (- ln)) in *. set (u := 2 ^ ln) in *. set (v := 2 ^ ld) in *.
  set (i := / D) in *.
  assert (Hp : 1 <= N * w /\ N * w < 2) by (split; nra).
  assert (Hr : 1 # 2 < v * i /\ v * i <= 1) by (split; nra).
  assert (HX : (n # d) * 2 ^ (- e0) == (N * w) * (v * i) * inject_Z (2 ^ 52)).
  { rewrite He, Hq. ring. }
  rewrite HX.
  assert (H51 : inject_Z (2 ^ 51) == (1 # 2) * inject_Z (2 ^ 52)) by reflexivity.
  assert (H53 : inject_Z (2 ^ 53) == 2 * inject_Z (2 ^ 52)) by reflexivity.
  rewrite H51, H53.
  assert (H52 : 0 < inject_Z (2 ^ 52)) by reflexivity.
  set (c := inject_Z (2 ^ 52)) in *.
  set (P := N * w) in *. set (R := v * i) in *.
  assert (HPR : 1 # 2 < P * R /\ P * R < 2) by (split; nra).
  set (PR := P * R) in *.
  split; nra.
Qed.

Lemma exponent_spec (q : Q) :
  ~ q == 0 ->
  inject_Z (2 ^ 52) <= Qabs q * 2 ^ (- exponent q)
  /\ Qabs q * 2 ^ (- exponent q) < inject_Z (2 ^ 53).
Proof.
  intros Hq.
  assert (Ha : 0 < Qabs q).
  { pose proof (Qabs_nonneg q). destruct (Qlt_le_dec 0 (Qabs q)) as [|q0]; [done|].
    exfalso. apply Hq. apply Qabs_Qle_condition in q0. lra. }
  destruct (scaled_estimate (Qabs q) Ha) as [Hlo Hhi].
  unfold exponent.
  set (e0 := (Z.log2 (Qnum (Qabs q)) - Z.log2 (Z.pos (Qden (Qabs q))) - 52)%Z) in *.
  destruct (Qle_bool (inject_Z (2 ^ 52)) (Qabs q * 2 ^ (- e0))) eqn:Hb.
  - apply Qle_bool_iff in Hb. done.
  - assert (Hlt : Qabs q * 2 ^ (- e0) < inject_Z (2 ^ 52)).
    { apply Qnot_le_lt. intros H. apply Qle_bool_iff in H. congruence. }
    replace (- (e0 - 1))%Z with (- e0 + 1)%Z by lia.
    rewrite pow2_succ.
    assert (H51 : inject_Z (2 ^ 51) == (1 # 2) * inject_Z (2 ^ 52)) by reflexivity.
    assert (H53 : inject_Z (2 ^ 53) == 2 * inject_Z (2 ^ 52)) by reflexivity.
    rewrite H51 in Hlo. rewrite H53.
    assert (Hm : Qabs q * (2 * 2 ^ (- e0)) == 2 * (Qabs q * 2 ^ (- e0))) by ring.
    rewrite Hm.
    set (c := inject_Z (2 ^ 52)) in *. set (X := Qabs q * 2 ^ (- e0)) in *.
    split; lra.
Qed.

Lemma Qabs_pos_lt (q : Q) : ~ q == 0 -> 0 < Qabs q.
Proof.
  intros Hq. pose proof (Qabs_nonneg q).
  destruct (Qlt_le_dec 0 (Qabs q)) as [|q0]; [done|].
  exfalso. apply Hq. apply Qabs_Qle_condition in q0. lra.
Qed.

(** The magnitude lies in the binade of its exponent. *)
Lemma binade (q : Q) :
  ~ q == 0 ->
  inject_Z (2 ^ 52) * 2 ^ exponent q <= Qabs q
  /\ Qabs q < inject_Z (2 ^ 53) * 2 ^ exponent q.
Proof.
  intros Hq. destruct (exponent_spec q Hq) as [Hlo Hhi].
  pose proof (pow2_pos (exponent q)) as He.
  pose proof (pow2_cancel (exponent q)) as Hc.
  set (p := 2 ^ exponent q) in *. set (m := 2 ^ (- exponent q)) in *.
  set (a := Qabs q) in *.
  assert (Ha : a == (a * m) * p) by (rewrite <- Qmult_assoc, Hc; ring).
  set (X := a * m) in *.
  split; nra.
Qed.

Lemma exponent_mono (x y : Q) :
  ~ x == 0 -> ~ y == 0 -> Qabs x <= Qabs y -> (exponent x <= exponent y)%Z.
Proof.
  intros Hx Hy Hxy.
  destruct (binade x Hx) as [Hx1 _]. destruct (binade y Hy) as [_ Hy2].
  destruct (Z_le_gt_dec (exponent x) (exponent y)) as [|Hgt]; [done|exfalso].
  assert (Hle : 2 ^ (exponent y + 1) <= 2 ^ exponent x) by (apply pow2_le; lia).
  rewrite pow2_succ in Hle.
  assert (H53 : inject_Z (2 ^ 53) == 2 * inject_Z (2 ^ 52)) by reflexivity.
  rewrite H53 in Hy2.
  assert (H52 : 0 < inject_Z (2 ^ 52)) by reflexivity.
  set (c := inject_Z (2 ^ 52)) in *.
  set (px := 2 ^ exponent x) in *. set (py := 2 ^ exponent y) in *.
  nra.
Qed.

Lemma round_b64_nonzero (q : Q) :
  ~ q == 0 ->
  round_b64 q = inject_Z (rint (q * 2 ^ (- exponent q))) * 2 ^ exponent q.
Proof.
  intros Hq. unfold round_b64.
  destruct (Qeq_bool q 0) eqn:Hb; [|done].
  apply Qeq_bool_iff in Hb. done.
Qed.

Lemma round_b64_zero (q : Q) : q == 0 -> round_b64 q = 0.
Proof.
  intros Hq. unfold round_b64.
  apply Qeq_bool_iff in Hq. by rewrite Hq.
Qed.

(** The significand of a positive number is between [2^52] and [2^53]. *)
Lemma significand_bounds (q : Q) :
  0 < q ->
  (2 ^ 52 <= rint (q * 2 ^ (- exponent q)) <= 2 ^ 53)%Z.
Proof.
  intros Hq.
  assert (Hne : ~ q == 0) by lra.
  destruct (exponent_spec q Hne) as [Hlo Hhi].
  rewrite Qabs_pos in Hlo, Hhi by lra.
  split.
  - rewrite <- (rint_inject (2 ^ 52)). by apply rint_mono.
  - rewrite <- (rint_inject (2 ^ 53)). apply rint_mono. lra.
Qed.

Lemma round_b64_mono_pos (x y : Q) :
  0 < x -> x <= y -> round_b64 x <= round_b64 y.
Proof.
  intros Hx Hxy.
  assert (Hy : 0 < y) by lra.
  rewrite !round_b64_nonzero by lra.
  assert (He : (exponent x <= exponent y)%Z)
    by (apply exponent_mono; [lra | lra | rewrite !Qabs_pos by lra; done]).
  destruct (significand_bounds x Hx) as [_ Hsx].
  destruct (significand_bounds y Hy) as [Hsy _].
  pose proof (pow2_pos (exponent x)) as Hpx.
  pose proof (pow2_pos (exponent y)) as Hpy.
  destruct (Z.eq_dec (exponent x) (exponent y)) as [Heq|Hne].
  - rewrite Heq.
    assert (Hs : (rint (x * 2 ^ (- exponent y)) <= rint (y * 2 ^ (- exponent y)))%Z).
    { apply rint_mono. pose proof (pow2_pos (- exponent y)). nra. }
    rewrite Zle_Qle in Hs.
    set (sx := inject_Z (rint (x * 2 ^ (- exponent y)))) in *.
    set (sy := inject_Z (rint (y * 2 ^ (- exponent y)))) in *.
    set (py := 2 ^ exponent y) in *. clearbody sx sy py. nra.
  - assert (Hle : 2 ^ (exponent x + 1) <= 2 ^ exponent y) by (apply pow2_le; lia).
    rewrite pow2_succ in Hle.
    rewrite Zle_Qle in Hsx, Hsy.
    assert (H53 : inject_Z (2 ^ 53) == 2 * inject_Z (2 ^ 52)) by reflexivity.
    rewrite H53 in Hsx.
    assert (H52 : 0 < inject_Z (2 ^ 52)) by reflexivity.
    set (c := inject_Z (2 ^ 52)) in *.
    set (sx := inject_Z (rint (x * 2 ^ (- exponent x)))) in *.
    set (sy := inject_Z (rint (y * 2 ^ (- exponent y)))) in *.
    set (px := 2 ^ exponent x) in *. set (py := 2 ^ exponent y) in *.
    clearbody c sx sy px py.
    assert (sx * px <= 2 * c * px) by nra.
    assert (c * py <= sy * py) by nra.
    nra.
Qed.

Lemma round_b64_pos (q : Q) : 0 < q -> 0 < round_b64 q.
Proof.
  intros Hq. rewrite round_b64_nonzero by lra.
  destruct (significand_bounds q Hq) as [Hs _].
  rewrite Zle_Qle in Hs.
  assert (H52 : 0 < inject_Z (2 ^ 52)) by reflexivity.
  pose proof (pow2_pos (exponent q)).
  set (c := inject_Z (2 ^ 52)) in *.
  set (s := inject_Z (rint (q * 2 ^ (- exponent q)))) in *.
  set (p := 2 ^ exponent q) in *. clearbody c s p. nra.
Qed.

Lemma exponent_opp (q : Q) : exponent (- q) = exponent q.
Proof.
  unfold exponent. destruct q as [n d]. cbn [Qabs Qopp Qnum Qden].
  by rewrite Z.abs_opp.
Qed.

Lemma round_b64_opp (q : Q) : round_b64 (- q) == - round_b64 q.
Proof.
  destruct (Qeq_dec q 0) as [Hq|Hq].
  - rewrite (round_b64_zero q Hq), (round_b64_zero (- q)) by lra. reflexivity.
  - rewrite !round_b64_nonzero by lra.
    rewrite exponent_opp.
    assert (Hs : - q * 2 ^ (- exponent q) == - (q * 2 ^ (- exponent q))) by ring.
    rewrite (rint_proper _ _ Hs), rint_opp, inject_Z_opp. ring.
Qed.

Lemma round_b64_mono (x y : Q) : x <= y -> round_b64 x <= round_b64 y.
Proof.
  intros Hxy.
  destruct (Q_dec x 0) as [[Hx|Hx]|Hx], (Q_dec y 0) as [[Hy|Hy]|Hy]; try lra.
  - assert (H : round_b64 (- y) <= round_b64 (- x))
      by (apply round_b64_mono_pos; lra).
    rewrite !round_b64_opp in H. lra.
  - assert (0 < round_b64 (- x)) by (apply round_b64_pos; lra).
    pose proof (round_b64_pos y Hy). rewrite round_b64_opp in *. lra.
  - assert (0 < round_b64 (- x)) by (apply round_b64_pos; lra).
    rewrite (round_b64_zero y Hy). rewrite round_b64_opp in *. lra.
  - by apply round_b64_mono_pos.
  - rewrite (round_b64_zero x Hx). pose proof (round_b64_pos y Hy). lra.
  - rewrite (round_b64_zero x Hx), (round_b64_zero y Hy). lra.
Qed.

Lemma round_b64_int_pos (z : Z) :
  (0 < z <= 2 ^ 53)%Z -> round_b64 (inject_Z z) == inject_Z z.
Proof.
  intros Hz.
  assert (Hq : 0 < inject_Z z) by (change 0 with (inject_Z 0); rewrite <- Zlt_Qlt; lia).
  rewrite round_b64_nonzero by lra.
  destruct (binade (inject_Z z)) as [Hlo _]; [lra|].
  rewrite Qabs_pos in Hlo by lra.
  set (e := exponent (inject_Z z)) in *.
  assert (He : (e <= 1)%Z).
  { apply (Qpower_le_compat_l_inv 2); [|reflexivity].
    change (2 ^ 1) with 2.
    assert (Hz' : inject_Z z <= inject_Z (2 ^ 53)) by (rewrite <- Zle_Qle; lia).
    assert (H53 : inject_Z (2 ^ 53) == 2 * inject_Z (2 ^ 52)) by reflexivity.
    rewrite H53 in Hz'.
    assert (H52 : 0 < inject_Z (2 ^ 52)) by reflexivity.
    set (c := inject_Z (2 ^ 52)) in *. set (p := 2 ^ e) in *. clearbody c p. nra. }
  destruct (Z.eq_dec e 1%Z) as [He1|He1].
  - rewrite He1 in *. change (2 ^ 1) with 2 in *.
    assert (z = 2 ^ 53)%Z.
    { apply Z.le_antisymm; [lia|]. rewrite Zle_Qle.
      assert (H53 : inject_Z (2 ^ 53) == inject_Z (2 ^ 52) * 2) by reflexivity.
      rewrite H53. done. }
    subst z. reflexivity.
  - assert (Hs : inject_Z z * 2 ^ (- e) == inject_Z (z * 2 ^ (- e))).
    { rewrite inject_Z_mult, <- pow2_inject by lia. reflexivity. }
    rewrite (rint_proper _ _ Hs), rint_inject, inject_Z_mult.
    rewrite <- (pow2_inject (- e)) by lia.
    rewrite <- Qmult_assoc, pow2_cancel. ring.
Qed.

Lemma binary64_laws : @FloatMulLaws binary64.
Proof.
  split.
  - apply round_b64_mono.
  - intros z Hz. unfold float_round, binary64.
    destruct (Z.lt_trichotomy z 0%Z) as [Hneg|[->|Hpos]].
    + assert (H : round_b64 (inject_Z (- z)) == inject_Z (- z))
        by (apply round_b64_int_pos; lia).
      change (inject_Z (- z)) with (- inject_Z z) in H.
      rewrite round_b64_opp in H. lra.
    + reflexivity.
    + apply round_b64_int_pos. lia.
Qed.

(** [5 * 1.4]: the float nearest to [1.4] is a little below it, the exact
    product a little below [7], and its rounding is [7]. *)
Example product_rounds_up :
  let pad_scale := 6305039478318694 # 4503599627370496 in
  py_int (scale_dim (F := binary64) 5 pad_scale) = 7%Z
  /\ py_int (scale_dim (F := exact) 5 pad_scale) = 6%Z.
Proof. split; vm_compute; reflexivity. Qed.
End Float64Facts.

(** ** [ImageConfig] and the [scatter] methods *)

Module ScatteringFacts.
Import Scattering.

(** On a non-negative number, [int] is the floor. *)
Lemma py_int_floor (x : Q) : (0 <= x)%Q -> py_int x = Qfloor x.
Proof.
  destruct x as [n d]. unfold Qle, py_int, Qfloor. simpl. intros Hn.
  apply Z.quot_div_nonneg; lia.
Qed.

Lemma py_int_between (x : Q) :
  (0 <= x)%Q -> (inject_Z (py_int x) <= x)%Q /\ (x < inject_Z (py_int x) + 1)%Q.
Proof.
  intros Hx. rewrite (py_int_floor x Hx).
  pose proof (Qfloor_le x) as Hle. pose proof (Qlt_floor x) as Hlt.
  rewrite inject_Z_plus in Hlt. change (inject_Z 1) with 1%Q in Hlt.
  split; lra.
Qed.

Lemma py_int_mono (x y : Q) : (0 <= x)%Q -> (x <= y)%Q -> py_int x <= py_int y.
Proof.
  intros Hx Hxy. rewrite !py_int_floor by lra. by apply Qfloor_resp_le.
Qed.

Lemma py_int_inject (z : Z) : py_int (inject_Z z) = z.
Proof. unfold py_int. simpl. apply Z.quot_1_r. Qed.


Lemma inject_Z_nonneg (s : Z) : 0 <= s -> (0 <= inject_Z s)%Q.
Proof. intros Hs. change 0%Q with (inject_Z 0). by rewrite <- Zle_Qle. Qed.

(** The exact instance satisfies the laws of a rounding. *)
Lemma exact_laws : @FloatMulLaws Float64.exact.
Proof. split; intros; unfold float_round, Float64.exact; [done | reflexivity]. Qed.

Section Rounding.
Context `{F : FloatMul} `{L : !FloatMulLaws}.

Lemma float_round_zero : (float_round 0 == 0)%Q.
Proof. apply (float_round_int 0). lia. Qed.

Lemma scale_dim_nonneg (s : Z) (p : Q) : 0 <= s -> (0 <= p)%Q -> (0 <= scale_dim s p)%Q.
Proof.
  intros Hs Hp. unfold scale_dim. rewrite <- float_round_zero.
  apply float_round_mono. apply Qmult_le_0_compat; [by apply inject_Z_nonneg | done].
Qed.


Lemma scale_dim_grows (s : Z) (p : Q) :
  0 <= s <= 2 ^ 53 -> (1 <= p)%Q -> (inject_Z s <= scale_dim s p)%Q.
Proof.
  intros Hs Hp. unfold scale_dim. rewrite <- (float_round_int s) at 1 by lia.
  apply float_round_mono. pose proof (inject_Z_nonneg s (proj1 Hs)). nra.
Qed.



(** A scale of at least [1] never shrinks one. *)
Lemma py_int_scale_ge (s : Z) (p : Q) :
  0 <= s <= 2 ^ 53 -> (1 <= p)%Q -> s <= py_int (scale_dim s p).
Proof.
  intros Hs Hp. rewrite <- (py_int_inject s) at 1.
  apply py_int_mono; [apply inject_Z_nonneg; lia | by apply scale_dim_grows].
Qed.
End Rounding.

Section Facts.
Context {V : Type} `{U : Utils V} `{F : FloatMul} `{L : !FloatMulLaws}.

(** What a returned configuration stores. *)
Lemma post_init_fields (sh : Z * Z) (px p : Q) (cfg : ImageConfig) :
  __post_init__ sh px p = inr cfg ->
  shape cfg = sh /\ pixel_size cfg = px /\ pad_scale cfg = p
  /\ padded_shape cfg = (py_int (scale_dim sh.1 p), py_int (scale_dim sh.2 p)).
Proof.
  unfold __post_init__. cbn.
  destruct (fftfreqs sh px false); [discriminate|]. cbn.
  destruct (fftfreqs _ px false); [discriminate|]. cbn.
  destruct (fftfreqs sh px true); [discriminate|]. cbn.
  destruct (fftfreqs _ px true); [discriminate|]. cbn.
  intros [= <-]. done.
Qed.


(** With a scale of at least [1] the padded plane contains the
    nominal one. *)
Lemma post_init_padded_ge (s1 s2 : Z) (px p : Q) (cfg : ImageConfig) :
  0 <= s1 <= 2 ^ 53 -> 0 <= s2 <= 2 ^ 53 -> (1 <= p)%Q ->
  __post_init__ (s1, s2) px p = inr cfg ->
  s1 <= (padded_shape cfg).1 /\ s2 <= (padded_shape cfg).2.
Proof.
  intros H1 H2 Hp Hcfg.
  destruct (post_init_fields _ _ _ _ Hcfg) as (_ & _ & _ & ->). cbn.
  split; by apply py_int_scale_ge.
Qed.

(** C2, amended. For a configuration built from a shape [(s1, s2)] of
    non-negative dimensions (that a float holds exactly) and a [pad_scale]
    of at least [1], each padded dimension is [int(s * pad_scale)]: the
    floating-point product truncated toward zero, that is the largest
    integer not above it (and not the nearest one); it is at least the
    nominal dimension. *)
Theorem padded_shape_is_truncated
    (s1 s2 : Z) (px p : Q) (cfg : ImageConfig) :
  0 <= s1 <= 2 ^ 53 -> 0 <= s2 <= 2 ^ 53 -> (1 <= p)%Q ->
  __post_init__ (s1, s2) px p = inr cfg ->
  padded_shape cfg = (py_int (scale_dim s1 p), py_int (scale_dim s2 p))
  /\ (inject_Z (padded_shape cfg).1 <= scale_dim s1 p
      /\ scale_dim s1 p < inject_Z (padded_shape cfg).1 + 1)%Q
  /\ (inject_Z (padded_shape cfg).2 <= scale_dim s2 p
      /\ scale_dim s2 p < inject_Z (padded_shape cfg).2 + 1)%Q
  /\ s1 <= (padded_shape cfg).1 /\ s2 <= (padded_shape cfg).2.
Proof.
  intros H1 H2 Hp Hcfg.
  pose proof (post_init_padded_ge _ _ _ _ _ H1 H2 Hp Hcfg) as Hge.
  destruct (post_init_fields _ _ _ _ Hcfg) as (_ & _ & _ & Hpad).
  rewrite Hpad in *. cbn [fst snd] in *.
  assert (0 <= p)%Q by lra.
  split; [done|].
  split; [apply py_int_between, scale_dim_nonneg; [lia | done]|].
  split; [apply py_int_between, scale_dim_nonneg; [lia | done]|].
  exact Hge.
Qed.


(** C5. On an object of class [FourierSliceScattering], whatever the
    positional and keyword arguments and whatever the helpers of
    [cryojax.utils] do, [scatter] raises [NotImplementedError]: no
    projection is returned and the object is as it was. *)
Theorem fourier_slice_scatter_raises
    (self : ScatteringConfig) (order : Z)
    (args : list arg) (kwargs : list (string * arg)) :
  variant self = FourierSliceScattering order ->
  scatter self args kwargs = (self, raise NotImplementedError)
  /\ (forall projection, (scatter self args kwargs).2 <> inr projection).
Proof.
  intros Hclass. unfold scatter. rewrite Hclass.
  split; [reflexivity|]. intros projection. cbn. discriminate.
Qed.

(** C10. [project_with_nufft] and [project_with_gaussians] read only
    the first two columns of the coordinates and the first two
    components of the box size: two calls that agree on those, and on
    every other argument, return the same. *)
Theorem projections_ignore_third_component
    (density : list V) (coordinates coordinates' : list coord3)
    (box_size box_size' : coord3) (sh : Z * Z) (eps px scale : Q) :
  first_two <$> coordinates = first_two <$> coordinates' ->
  first_two box_size = first_two box_size' ->
  project_with_nufft density coordinates box_size sh eps
  = project_with_nufft density coordinates' box_size' sh eps
  /\ project_with_gaussians density coordinates box_size sh px scale
     = project_with_gaussians density coordinates' box_size' sh px scale.
Proof.
  intros Hc Hb. unfold project_with_nufft, project_with_gaussians.
  rewrite Hc, Hb. done.
Qed.
End Facts.

(** A shape of [(5, 5)] padded by [7/4]: [5 * 1.75 = 8.75] is stored as
    [8]. *)
Lemma padded_shape_is_truncated_witness :
  exists cfg,
    __post_init__ (U := IntUtils.int_utils) (F := Float64.binary64)
      (5, 5) 1 (7 # 4) = inr cfg
    /\ padded_shape cfg = (8, 8).
Proof.
  eexists. split; [vm_compute; reflexivity|].
  eapply (padded_shape_is_truncated (U := IntUtils.int_utils) (L := Float64Facts.binary64_laws)
            5 5 1 (7 # 4));
    [lia | lia | unfold Qle; simpl; lia | vm_compute; reflexivity].
Defined.

(** C2 as stated fails: in binary64 arithmetic [8] is stored where the
    nearest integer to [5 * 1.75 = 8.75] is [9]. *)
Lemma padded_shape_not_rounded :
  exists cfg,
    __post_init__ (U := IntUtils.int_utils) (F := Float64.binary64)
      (5, 5) 1 (7 # 4) = inr cfg
    /\ (1 <= 7 # 4)%Q
    /\ padded_shape cfg = (8, 8)
    /\ Np.rint (inject_Z 5 * (7 # 4)) = 9
    /\ Np.rint (scale_dim (F := Float64.binary64) 5 (7 # 4)) = 9
    /\ ~ (Qabs (inject_Z 5 * (7 # 4) - inject_Z (padded_shape cfg).1) <= 1 # 2)%Q.
Proof.
  eexists. split; [vm_compute; reflexivity|].
  split; [unfold Qle; simpl; lia|].
  split; [vm_compute; reflexivity|].
  split; [vm_compute; reflexivity|].
  split; [vm_compute; reflexivity|].
  vm_compute. intros H. apply H. reflexivity.
Qed.



(** A Fourier-slice configuration built by the constructor, called with a
    density, coordinates and a box. *)
Lemma fourier_slice_scatter_raises_witness :
  exists self,
    new_scattering (U := IntUtils.int_utils) (F := Float64.binary64)
      (FourierSliceScattering 1) (4, 4) 1 1 = inr self
    /\ scatter (U := IntUtils.int_utils) self
         [ArgDensity [3; 4]; ArgCoordinates [(0%Q, 0%Q, 0%Q); (1%Q, 0%Q, 0%Q)];
          ArgBox (4%Q, 4%Q, 4%Q)] []
       = (self, raise NotImplementedError).
Proof.
  eexists. split; [vm_compute; reflexivity|].
  eapply (fourier_slice_scatter_raises (U := IntUtils.int_utils) _ 1). reflexivity.
Defined.

(** Coordinates and boxes that differ in their third component only. *)
Lemma projections_ignore_third_component_witness :
  project_with_nufft (U := IntUtils.int_utils) [3; 4]
    [(0%Q, 0%Q, 5%Q); (9%Q, 0%Q, 1%Q)] (4%Q, 4%Q, 4%Q) (2, 2) (1 # 1000000)
  = project_with_nufft (U := IntUtils.int_utils) [3; 4]
      [(0%Q, 0%Q, (-7)%Q); (9%Q, 0%Q, 2%Q)] (4%Q, 4%Q, 100%Q) (2, 2) (1 # 1000000).
Proof.
  apply (projections_ignore_third_component (U := IntUtils.int_utils)
           [3; 4] [(0%Q, 0%Q, 5%Q); (9%Q, 0%Q, 1%Q)]
           [(0%Q, 0%Q, (-7)%Q); (9%Q, 0%Q, 2%Q)]
           (4%Q, 4%Q, 4%Q) (4%Q, 4%Q, 100%Q) (2, 2) (1 # 1000000) 1 1);
    reflexivity.
Defined.
End ScatteringFacts.

(** ** Projections through the modelled helpers *)

Module ProjectionFacts.
Import Np SpecUtils Scattering.

Section Facts.
Context {V : Type} (vzero : V) (vadd vmul : V -> V -> V).
Context (in_box : Q * Q -> Q * Q -> bool).
Context (phase : Q * Q -> Q * Q -> Z * Z -> nat -> nat -> V).
Context (pixel_integral : Q * Q -> Q -> Q -> Z * Z -> nat -> nat -> V).
Context (twiddle : nat * nat -> nat -> nat -> nat -> nat -> V).
Context (to_freq from_freq : image V -> image V).

Local Abbreviation U :=
  (spec_utils vzero vadd vmul in_box phase pixel_integral twiddle
     to_freq from_freq).

Hypothesis vmul_zero_l : forall x, vmul vzero x = vzero.
Hypothesis vadd_zero : vadd vzero vzero = vzero.

Lemma tabulate_const (N1 N2 : nat) (v : V) :
  tabulate N1 N2 (fun _ _ => v) = replicate N1 (replicate N2 v).
Proof.
  unfold tabulate.
  assert (Hrow : forall n k, (fun _ : nat => v) <$> seq k n = replicate n v).
  { induction n as [|n IH]; intros k; simpl; [done|]. by rewrite IH. }
  rewrite Hrow.
  generalize 0%nat. induction N1 as [|N1 IH]; intros k; simpl; [done|].
  by rewrite IH.
Qed.

Lemma tabulate_ext (N1 N2 : nat) (f g : nat -> nat -> V) :
  (forall i j, (i < N1)%nat -> (j < N2)%nat -> f i j = g i j) ->
  tabulate N1 N2 f = tabulate N1 N2 g.
Proof.
  intros Hfg. unfold tabulate.
  apply list_fmap_ext. intros k i Hi.
  apply lookup_seq in Hi as [-> Hi].
  apply list_fmap_ext. intros k' j Hj.
  apply lookup_seq in Hj as [-> Hj].
  by apply Hfg.
Qed.

(** A sum of zeros is zero. *)
Lemma wsum_zero {A : Type} (f : A -> V) (l : list A) :
  Forall (fun a => f a = vzero) l -> wsum vzero vadd f l = vzero.
Proof.
  unfold wsum. induction 1 as [|a l Ha _ IH]; simpl; [done|].
  by rewrite Ha, vadd_zero.
Qed.

(** Masking a cloud that lies outside the box leaves no density. *)
Lemma bound_all_outside (density : list V) (coords : list (Q * Q)) (box : Q * Q) :
  length density = length coords ->
  Forall (fun c => in_box c box = false) coords ->
  spec_bound vzero in_box density coords box
  = inr (replicate (length density) vzero).
Proof.
  intros Hlen Hout. unfold spec_bound. rewrite decide_True by done.
  cbn. f_equal. clear -Hlen Hout.
  revert density Hlen.
  induction Hout as [|c coords Hc _ IH]; intros [|d density] Hlen;
    simpl in *; try done.
  rewrite Hc, IH by lia. done.
Qed.

Lemma Forall_zip_replicate {A : Type} (n : nat) (l : list A) (P : V * A -> Prop) :
  (forall a, P (vzero, a)) -> Forall P (zip (replicate n vzero) l).
Proof.
  intros HP. revert l.
  induction n as [|n IH]; intros [|a l]; simpl; constructor; auto.
Qed.

(** The forward transform of the zero image is the zero image. *)
Lemma fft_zero (N1 N2 : nat) :
  spec_fft vzero vadd vmul twiddle (replicate N1 (replicate N2 vzero))
  = inr (replicate N1 (replicate N2 vzero)).
Proof.
  unfold spec_fft, mret, result_ret. f_equal.
  set (img := replicate N1 (replicate N2 vzero)).
  assert (Hsum : forall k1 k2,
    wsum vzero vadd
      (fun ir => wsum vzero vadd
                   (fun jv => vmul jv.2 (twiddle (image_shape img) k1 k2 ir.1 jv.1))
                   (enumerate ir.2))
      (enumerate img) = vzero).
  { intros k1 k2. apply wsum_zero.
    apply Forall_forall. intros [i row] Hin. cbn.
    apply elem_of_zip_r in Hin. cbn in Hin.
    apply elem_of_replicate in Hin as [-> _].
    apply wsum_zero. apply Forall_forall. intros [j v] Hjv. cbn.
    apply elem_of_zip_r in Hjv. cbn in Hjv.
    apply elem_of_replicate in Hjv as [-> _]. apply vmul_zero_l. }
  rewrite (tabulate_ext _ _ _ (fun _ _ => vzero)) by (intros; apply Hsum).
  rewrite tabulate_const. subst img.
  unfold image_shape. destruct N1; simpl; [done|].
  by rewrite !length_replicate.
Qed.

(** C6. A density and a coordinate array of the same length whose
    points all lie outside the box project, by [project_with_nufft] and
    by [project_with_gaussians], to the all-zero image of the target
    shape; no error is raised. *)
Theorem outside_box_projects_to_zero
    (density : list V) (coordinates : list coord3) (box_size : coord3)
    (sh : Z * Z) (eps px scale : Q) :
  length density = length coordinates ->
  Forall (fun c => in_box (first_two c) (first_two box_size) = false) coordinates ->
  project_with_nufft (U := U) density coordinates box_size sh eps
  = inr (replicate (Z.to_nat sh.1) (replicate (Z.to_nat sh.2) vzero))
  /\ project_with_gaussians (U := U) density coordinates box_size sh px scale
     = inr (replicate (Z.to_nat sh.1) (replicate (Z.to_nat sh.2) vzero)).
Proof.
  intros Hlen Hout.
  assert (Hb : spec_bound vzero in_box density (first_two <$> coordinates)
                 (first_two box_size)
               = inr (replicate (length density) vzero)).
  { apply bound_all_outside; [by rewrite length_fmap|].
    by apply Forall_fmap. }
  unfold project_with_nufft, project_with_gaussians.
  cbn -[tabulate wsum spec_bound spec_fft]. rewrite Hb.
  cbn -[tabulate wsum spec_fft].
  split.
  - f_equal. rewrite <- tabulate_const. apply tabulate_ext. intros i j _ _.
    apply wsum_zero, Forall_zip_replicate. intros c. cbn. apply vmul_zero_l.
  - rewrite (tabulate_ext _ _ _ (fun _ _ => vzero)).
    + rewrite tabulate_const. apply fft_zero.
    + intros i j _ _.
      apply wsum_zero, Forall_zip_replicate. intros c. cbn. apply vmul_zero_l.
Qed.
End Facts.

(** Two points beyond a box of side [4], on a [(2, 2)] plane. *)
Lemma outside_box_projects_to_zero_witness :
  project_with_nufft (U := IntUtils.int_utils) [3; 4]
    [(9%Q, 0%Q, 1%Q); (0%Q, (-5)%Q, 0%Q)] (4%Q, 4%Q, 4%Q) (2, 2) (1 # 1000000)
  = inr [[0; 0]; [0; 0]]
  /\ project_with_gaussians (U := IntUtils.int_utils) [3; 4]
       [(9%Q, 0%Q, 1%Q); (0%Q, (-5)%Q, 0%Q)] (4%Q, 4%Q, 4%Q) (2, 2) 1 (1 # 3)
     = inr [[0; 0]; [0; 0]].
Proof.
  apply (outside_box_projects_to_zero 0 Z.add Z.mul IntUtils.in_centred_box
           (fun _ _ _ _ _ => 1) (fun _ _ _ _ _ _ => 1) (fun _ _ _ _ _ => 1)
           (fun img => img) (fun img => img) Z.mul_0_l eq_refl
           [3; 4] [(9%Q, 0%Q, 1%Q); (0%Q, (-5)%Q, 0%Q)] (4%Q, 4%Q, 4%Q)
           (2, 2) (1 # 1000000) 1 (1 # 3)).
  - reflexivity.
  - repeat constructor.
Defined.
End ProjectionFacts.

(** ** Cropping, padding and resampling through the modelled helpers *)

Module ResampleFacts.
Import Np SpecUtils Scattering.

Section Lists.
Context {A : Type}.

Lemma pad1_length (o m : nat) (fill : nat -> A) (l : list A) :
  length (pad1 o m fill l) = m.
Proof. unfold pad1. by rewrite length_fmap, length_seq. Qed.

Lemma pad1_lookup_inside (o m : nat) (fill : nat -> A) (l : list A) (k : nat) :
  (o + length l <= m)%nat -> (k < length l)%nat ->
  pad1 o m fill l !! (o + k)%nat = l !! k.
Proof.
  intros Hm Hk. unfold pad1. rewrite list_lookup_fmap.
  rewrite lookup_seq_lt by lia. cbn.
  rewrite decide_True by lia.
  replace (o + k - o)%nat with k by lia.
  destruct (lookup_lt_is_Some_2 l k Hk) as [x ->]. done.
Qed.

(** The centred window of a centred padding is the list itself. *)
Lemma crop1_pad1 (m : nat) (fill : nat -> A) (l : list A) :
  (length l <= m)%nat ->
  crop1 (length l) (pad1 (offset m (length l)) m fill l) = l.
Proof.
  intros Hm. unfold crop1. rewrite pad1_length.
  assert (Ho : (offset m (length l) + length l <= m)%nat).
  { unfold offset.
    pose proof (Nat.Div0.mul_div_le (m - length l) 2). lia. }
  apply list_eq. intros k.
  rewrite lookup_take, lookup_drop.
  case_decide as Hk.
  - by apply pad1_lookup_inside.
  - symmetry. apply lookup_ge_None. lia.
Qed.

Lemma crop1_full (l : list A) : crop1 (length l) l = l.
Proof.
  unfold crop1, offset. rewrite Nat.sub_diag. cbn.
  by rewrite take_ge.
Qed.

(** Zero-padding a spectrum axis and truncating it again. *)
Lemma fit1_fit1 (fill fill' : A) (m : nat) (l : list A) :
  (length l <= m)%nat ->
  fit1 fill' (length l) (fit1 fill m l) = l.
Proof.
  intros Hm. unfold fit1 at 2.
  case_decide as Hc.
  - assert (m = length l) as -> by lia.
    rewrite crop1_full. unfold fit1. rewrite decide_True by done.
    apply crop1_full.
  - unfold fit1. rewrite pad1_length, decide_True by done.
    by apply crop1_pad1.
Qed.
End Lists.

Lemma pad1_Forall {A : Type} (P : A -> Prop) (o m : nat) (fill : nat -> A) (l : list A) :
  (forall i, P (fill i)) -> Forall P l -> Forall P (pad1 o m fill l).
Proof.
  intros Hfill Hl. unfold pad1. apply Forall_fmap, Forall_forall.
  intros i _. cbn. case_decide; [|done].
  destruct (l !! (i - o)%nat) as [x|] eqn:Hx; cbn; [|done].
  eapply Forall_lookup_1; eauto.
Qed.

Lemma has_shape_image_shape {A : Type} (a : image A) (n1 n2 : nat) :
  has_shape a n1 n2 -> (0 < n1)%nat -> image_shape a = (n1, n2).
Proof.
  intros [Hlen Hrows] Hpos. unfold image_shape.
  destruct a as [|row a]; simpl in *; [lia|].
  apply Forall_cons in Hrows as [-> _]. by rewrite Hlen.
Qed.

Lemma pad1_fmap {A B : Type} (f : A -> B) (o m : nat) (fill : nat -> A) (l : list A) :
  f <$> pad1 o m fill l = pad1 o m (fun i => f (fill i)) (f <$> l).
Proof.
  unfold pad1. rewrite <- list_fmap_compose.
  apply list_fmap_ext. intros k i _. cbn.
  case_decide; [|done].
  rewrite list_lookup_fmap. by destruct (l !! (i - o)%nat).
Qed.

Lemma crop1_fmap {A B : Type} (f : A -> B) (n : nat) (l : list A) :
  f <$> crop1 n l = crop1 n (f <$> l).
Proof. unfold crop1. by rewrite fmap_take, fmap_drop, length_fmap. Qed.

Lemma fit1_fmap {A B : Type} (f : A -> B) (fill : A) (n : nat) (l : list A) :
  f <$> fit1 fill n l = fit1 (f fill) n (f <$> l).
Proof.
  unfold fit1. rewrite length_fmap.
  case_decide; [apply crop1_fmap | apply pad1_fmap].
Qed.

Section Images.
Context {V : Type} (vzero : V).

(** A centred two-dimensional padding followed by the centred crop. *)
Lemma spec_crop_pad (img : image V) (s1 s2 d1 d2 : Z) (mode : nat -> nat -> V) :
  0 < s1 -> 0 < s2 -> s1 <= d1 -> s2 <= d2 ->
  has_shape img (Z.to_nat s1) (Z.to_nat s2) ->
  spec_pad img (d1, d2) mode ≫= (fun padded => spec_crop padded (s1, s2))
  = inr img.
Proof.
  intros H1 H2 Hd1 Hd2 Hsh.
  pose proof Hsh as [Hlen Hrows].
  unfold spec_pad.
  rewrite (has_shape_image_shape img _ _ Hsh) by lia. cbn [fst snd].
  rewrite decide_True by lia.
  set (m1 := Z.to_nat d1). set (m2 := Z.to_nat d2).
  set (n1 := Z.to_nat s1) in *. set (n2 := Z.to_nat s2) in *.
  set (rows := imap (fun i row => pad1 (offset m2 n2) m2 (mode (offset m1 n1 + i)%nat) row) img).
  set (padded := pad1 (offset m1 n1) m1 (fun i => mode i <$> seq 0 m2) rows).
  assert (Hrl : length rows = n1) by (unfold rows; by rewrite length_imap).
  assert (Hpsh : has_shape padded m1 m2).
  { split; [apply pad1_length|]. apply pad1_Forall.
    - intros i. by rewrite length_fmap, length_seq.
    - apply Forall_forall. intros r Hr.
      apply list_elem_of_lookup in Hr as [i Hi]. unfold rows in Hi.
      rewrite list_lookup_imap in Hi.
      destruct (img !! i); [|done]. cbn in Hi. injection Hi as <-.
      apply pad1_length. }
  change (mret padded ≫= (fun padded => spec_crop padded (s1, s2)))
    with (spec_crop padded (s1, s2)).
  unfold spec_crop.
  rewrite (has_shape_image_shape padded _ _ Hpsh) by lia. cbn [fst snd].
  rewrite decide_True by lia. fold n1 n2.
  unfold mret, result_ret. f_equal.
  assert (Hc : crop1 n1 padded = rows).
  { unfold padded. rewrite <- Hrl at 1 2. apply crop1_pad1. lia. }
  rewrite Hc. apply list_eq. intros i.
  rewrite list_lookup_fmap. unfold rows. rewrite list_lookup_imap.
  destruct (img !! i) as [row|] eqn:Hrow; [|done]. cbn. f_equal.
  assert (Hr : length row = n2) by (eapply Forall_lookup_1 in Hrows; eauto).
  rewrite <- Hr at 1 2. apply crop1_pad1. lia.
Qed.

(** A spectrum zero-padded to a larger shape and truncated back. *)
Lemma fit_fit (spec : image V) (n1 n2 m1 m2 : nat) :
  has_shape spec n1 n2 -> (n1 <= m1)%nat -> (n2 <= m2)%nat ->
  fit1 (replicate n2 vzero) n1
    (fit1 vzero n2 <$> fit1 (replicate m2 vzero) m1 (fit1 vzero m2 <$> spec))
  = spec.
Proof.
  intros [Hlen Hrows] Hm1 Hm2.
  rewrite fit1_fmap, <- list_fmap_compose.
  assert (Hid : (fit1 vzero n2 ∘ fit1 vzero m2) <$> spec = spec).
  { rewrite <- (list_fmap_id spec) at 2.
    apply list_fmap_ext. intros i row Hrow. cbn.
    assert (Hr : length row = n2) by (eapply Forall_lookup_1 in Hrows; eauto).
    rewrite <- Hr at 1. apply fit1_fit1. lia. }
  rewrite Hid. rewrite <- Hlen at 1. apply fit1_fit1. lia.
Qed.
End Images.

Section Identity.
Context {V : Type} (vzero : V) (vadd vmul : V -> V -> V).
Context (in_box : Q * Q -> Q * Q -> bool).
Context (phase : Q * Q -> Q * Q -> Z * Z -> nat -> nat -> V).
Context (pixel_integral : Q * Q -> Q -> Q -> Z * Z -> nat -> nat -> V).
Context (twiddle : nat * nat -> nat -> nat -> nat -> nat -> V).
Context (to_freq from_freq : image V -> image V).
Context `{F : FloatMul} `{L : !FloatMulLaws}.

Local Abbreviation U :=
  (spec_utils vzero vadd vmul in_box phase pixel_integral twiddle
     to_freq from_freq).

(** The transform pair behind [resize] is exact and keeps the shape. *)
Hypothesis to_freq_from_freq : forall spec, to_freq (from_freq spec) = spec.
Hypothesis from_freq_to_freq : forall img, from_freq (to_freq img) = img.
Hypothesis to_freq_shape :
  forall img n1 n2, has_shape img n1 n2 -> has_shape (to_freq img) n1 n2.

(** C3. On an image of the nominal shape of a configuration built
    with [pad_scale >= 1], [crop] undoes [pad] (whatever the padding
    mode) and [downsample] undoes [upsample]. *)
Theorem crop_pad_and_resample_identity
    (s1 s2 : Z) (px p : Q) (cfg : ImageConfig)
    (x : image V) (mode : nat -> nat -> V) :
  0 < s1 <= 2 ^ 53 -> 0 < s2 <= 2 ^ 53 -> (1 <= p)%Q ->
  __post_init__ (U := U) (s1, s2) px p = inr cfg ->
  has_shape x (Z.to_nat s1) (Z.to_nat s2) ->
  (ImageConfig_pad (U := U) cfg x mode
     ≫= fun padded => ImageConfig_crop (U := U) cfg padded) = inr x
  /\ (ImageConfig_upsample (U := U) cfg x tt
        ≫= fun up => ImageConfig_downsample (U := U) cfg up tt) = inr x.
Proof.
  intros H1 H2 Hp Hcfg Hx.
  destruct (ScatteringFacts.post_init_padded_ge (U := U) s1 s2 px p cfg)
    as [Hd1 Hd2]; [lia | lia | done | done |].
  destruct (ScatteringFacts.post_init_fields (U := U) _ _ _ _ Hcfg)
    as (Hshape & _ & _ & _).
  unfold ImageConfig_pad, ImageConfig_crop, ImageConfig_upsample,
    ImageConfig_downsample.
  rewrite Hshape.
  destruct (padded_shape cfg) as [d1 d2]. cbn [fst snd] in Hd1, Hd2.
  split.
  - apply spec_crop_pad; [lia | lia | done | done | done].
  - cbn -[fit1]. unfold spec_resize, mret, result_ret. cbn [fst snd].
    rewrite to_freq_from_freq.
    rewrite (fit_fit vzero (to_freq x) (Z.to_nat s1) (Z.to_nat s2)
               (Z.to_nat d1) (Z.to_nat d2)) by (try apply to_freq_shape; try done; lia).
    by rewrite from_freq_to_freq.
Qed.
End Identity.

(** A [(2, 2)] image in a configuration padded by [3/2] to [(3, 3)]. *)
Lemma crop_pad_and_resample_identity_witness :
  exists cfg,
    __post_init__ (U := IntUtils.int_utils) (F := Float64.binary64)
      (2, 2) 1 (3 # 2) = inr cfg
    /\ padded_shape cfg = (3, 3)
    /\ ImageConfig_pad (U := IntUtils.int_utils) cfg [[1; 2]; [3; 4]] (fun _ _ => 9)
       = inr [[1; 2; 9]; [3; 4; 9]; [9; 9; 9]]
    /\ (ImageConfig_pad (U := IntUtils.int_utils) cfg [[1; 2]; [3; 4]] (fun _ _ => 9)
          ≫= fun padded => ImageConfig_crop (U := IntUtils.int_utils) cfg padded)
       = inr [[1; 2]; [3; 4]]
    /\ (ImageConfig_upsample (U := IntUtils.int_utils) cfg [[1; 2]; [3; 4]] tt
          ≫= fun up => ImageConfig_downsample (U := IntUtils.int_utils) cfg up tt)
       = inr [[1; 2]; [3; 4]].
Proof.
  eexists. split; [vm_compute; reflexivity|].
  split; [reflexivity|].
  split; [vm_compute; reflexivity|].
  eapply (crop_pad_and_resample_identity 0 Z.add Z.mul IntUtils.in_centred_box
            (fun _ _ _ _ _ => 1) (fun _ _ _ _ _ _ => 1) (fun _ _ _ _ _ => 1)
            (fun img => img) (fun img => img) (L := Float64Facts.binary64_laws)
            (fun _ => eq_refl) (fun _ => eq_refl) (fun _ _ _ H => H)
            2 2 1 (3 # 2) _ [[1; 2]; [3; 4]] (fun _ _ => 9)).
  - lia.
  - lia.
  - unfold Qle; simpl; lia.
  - vm_compute; reflexivity.
  - split; [reflexivity | repeat constructor].
Defined.
End ResampleFacts.

(** ** The integral of a voxel grid built from atoms *)

Module VoxelFacts.
Import Voxels.
Local Open Scope R_scope.




















End VoxelFacts.


(** ** The discrete Fourier transform pair *)

Module FftFacts.
Import Voxels Potentials Fft.
Local Open Scope R_scope.

(** *** The complex numbers as a ring *)
Lemma C_ring : ring_theory Czero (1, 0) Cadd Cmul
                 (fun z w => Cadd z (Cscale (-1) w)) (Cscale (-1)) eq.
Proof.
  split; intros; repeat match goal with z : C |- _ => destruct z end;
    unfold Cadd, Cmul, Cscale, Czero; cbn [fst snd]; f_equal; ring.
Qed.
Add Ring Cring : C_ring.











Section Sums.
Context {A : Type}.
Implicit Types (f g : A -> C) (l : list A).








End Sums.



























Lemma shape3_in_range {A : Type} n (z : grid3 A) k :
  has_shape3 n z -> in_range n k -> shape3 z = n.
Proof.
  destruct n as [[n1 n2] n3]. unfold has_shape3, in_range. cbn [fst snd].
  intros [H1 Hplanes] (Hk1 & Hk2 & Hk3).
  destruct z as [|plane z]; [cbn in H1; lia|].
  apply Forall_cons in Hplanes as [[H2 Hrows] _].
  destruct plane as [|row plane]; [cbn in H2; lia|].
  apply Forall_cons in Hrows as [H3 _]. unfold shape3. by rewrite H1, H2, H3.
Qed.

End FftFacts.


(** ** Frequency shifts and the agreement of the two potentials *)

Module ShiftFacts.
Import Np.

Example fftshift1_odd : fftshift1 [0; 1; 2] = [2; 0; 1].
Proof. reflexivity. Qed.

Example ifftshift1_odd : ifftshift1 [0; 1; 2] = [1; 2; 0].
Proof. reflexivity. Qed.

Example fftshift1_even : fftshift1 [0; 1; 2; 3] = [2; 3; 0; 1].
Proof. reflexivity. Qed.

Section Lists.
Context {A : Type}.

(** Two rotations that add up to the length cancel. *)
Lemma rotate_rotate_full (a b : nat) (l : list A) :
  (a + b)%nat = length l -> rotate a (rotate b l) = l.
Proof.
  intros Hab. apply list_eq. intros i.
  destruct (decide (i < length l)%nat) as [Hi|Hi].
  - rewrite lookup_rotate_r by (by rewrite length_rotate).
    rewrite length_rotate.
    rewrite lookup_rotate_r by (apply rotate_nat_add_lt; lia).
    f_equal. unfold rotate_nat_add.
    rewrite Z2Nat.id by (apply Z.mod_pos; lia).
    rewrite Zplus_mod_idemp_r.
    replace (Z.of_nat b + (Z.of_nat a + Z.of_nat i))%Z
      with (Z.of_nat i + 1 * Z.of_nat (length l))%Z by lia.
    rewrite Z_mod_plus_full, Z.mod_small by lia. lia.
  - rewrite !lookup_ge_None_2; [done | lia | rewrite !length_rotate; lia].
Qed.

Lemma ifftshift1_fftshift1 (l : list A) : ifftshift1 (fftshift1 l) = l.
Proof.
  unfold ifftshift1, fftshift1. rewrite length_rotate.
  apply rotate_rotate_full.
  pose proof (Nat.Div0.div_le_upper_bound (length l) 2 (length l)). lia.
Qed.


Lemma Forall_rotate (P : A -> Prop) (k : nat) (l : list A) :
  Forall P l -> Forall P (rotate k l).
Proof.
  rewrite !Forall_forall. intros Hl x Hx. apply Hl. by apply elem_of_rotate in Hx.
Qed.
End Lists.

Lemma rotate_fmap {A B : Type} (f : A -> B) (k : nat) (l : list A) :
  f <$> rotate k l = rotate k (f <$> l).
Proof. unfold rotate. by rewrite fmap_app, fmap_drop, fmap_take, length_fmap. Qed.

Lemma fftshift1_fmap {A B : Type} (f : A -> B) (l : list A) :
  f <$> fftshift1 l = fftshift1 (f <$> l).
Proof. unfold fftshift1. by rewrite rotate_fmap, length_fmap. Qed.

Lemma ifftshift1_fmap {A B : Type} (f : A -> B) (l : list A) :
  f <$> ifftshift1 l = ifftshift1 (f <$> l).
Proof. unfold ifftshift1. by rewrite rotate_fmap, length_fmap. Qed.

Lemma fmap_id_on {A : Type} (f : A -> A) (l : list A) :
  (forall x, f x = x) -> f <$> l = l.
Proof.
  intros Hf. rewrite <- (list_fmap_id l) at 2. apply list_fmap_ext. intros; apply Hf.
Qed.

(** [ifftshift] undoes [fftshift], and [fftshift] undoes [ifftshift], on
    every array, of even or odd sides. *)
Lemma ifftshift_fftshift {A : Type} (g : list (list (list A))) :
  ifftshift (fftshift g) = g.
Proof.
  unfold ifftshift, fftshift.
  rewrite fftshift1_fmap, ifftshift1_fftshift1, <- list_fmap_compose.
  apply fmap_id_on. intros plane. cbn.
  rewrite fftshift1_fmap, ifftshift1_fftshift1, <- list_fmap_compose.
  apply fmap_id_on. intros row. cbn. apply ifftshift1_fftshift1.
Qed.


Lemma ifftshift_shape {A : Type} (n : nat * nat * nat) (g : list (list (list A))) :
  Voxels.has_shape3 n g -> Voxels.has_shape3 n (ifftshift g).
Proof.
  intros [Hlen Hplanes]. unfold ifftshift, ifftshift1. split.
  - by rewrite length_rotate, length_fmap.
  - apply Forall_rotate, Forall_fmap.
    eapply Forall_impl; [exact Hplanes|]. intros plane [Hp Hrows]. cbn. split.
    + by rewrite length_rotate, length_fmap.
    + apply Forall_rotate, Forall_fmap.
      eapply Forall_impl; [exact Hrows|]. intros row Hr. cbn.
      by rewrite length_rotate.
Qed.
End ShiftFacts.

Module PotentialFacts.
Import Np Voxels Potentials.
Local Open Scope R_scope.

Lemma map3_shape {A B : Type} (f : A -> B) (n : nat * nat * nat) (g : grid3 A) :
  has_shape3 n g -> has_shape3 n (map3 f g).
Proof.
  intros [Hlen Hplanes]. unfold map3. split; [by rewrite length_fmap|].
  apply Forall_fmap. eapply Forall_impl; [exact Hplanes|].
  intros plane [Hp Hrows]. cbn. split; [by rewrite length_fmap|].
  apply Forall_fmap. eapply Forall_impl; [exact Hrows|].
  intros row Hr. cbn. by rewrite length_fmap.
Qed.





Section Agreement.
Context (fftn_raw ifftn_raw : grid3 C -> grid3 C).
Context (form_factors : Z -> list R * list R).
Context (n : nat * nat * nat).

(** The raw inverse transform undoes the raw transform on arrays of
    shape [n]. *)
Hypothesis raw_inverse : forall z, has_shape3 n z -> ifftn_raw (fftn_raw z) = z.


(** With the raw inverse transform in place of the re-centring helper, the
    real grid comes back with its midpoint at the array origin. *)
Lemma raw_inverse_is_shifted (g : grid3 R) (voxel_size : R) :
  has_shape3 n g ->
  map3 re (ifftn_raw (ifftshift
             (fourier_voxel_grid
                (FourierVoxelGridPotential_from_real_voxel_grid fftn_raw g voxel_size))))
  = ifftshift g.
Proof.
  intros Hg. cbn.
  rewrite ShiftFacts.ifftshift_fftshift.
  rewrite raw_inverse by (by apply ShiftFacts.ifftshift_shape, map3_shape).
  unfold ifftshift, map3.
  rewrite ShiftFacts.ifftshift1_fmap, <- !list_fmap_compose. f_equal.
  apply list_fmap_ext. intros _ plane _. cbn.
  rewrite ShiftFacts.ifftshift1_fmap, <- !list_fmap_compose. f_equal.
  apply list_fmap_ext. intros _ row _. cbn.
  rewrite ShiftFacts.ifftshift1_fmap, <- list_fmap_compose.
  f_equal. by apply ShiftFacts.fmap_id_on.
Qed.
End Agreement.


End PotentialFacts.

(** ** Laws of [project_with_binning] *)

Module BinningLaws.
Import Np Binning Arrays.

Section Laws.
Context {V : Type} (vzero : V) (vadd : V -> V -> V).

(** On arrays of one length and a positive shape the projection is the
    table of the pixel sums. *)
Lemma binning_histogram (density : list V) (coords : list coord3) (N1 N2 : Z) :
  length density = length coords -> 0 < N1 -> 0 < N2 ->
  project_with_binning vzero vadd density coords (N1, N2)
  = inr (histogram vzero vadd N1 N2 density coords).
Proof.
  intros Hlen H1 H2. unfold project_with_binning, bincount.
  rewrite decide_True by (rewrite length_fmap; done). simpl. f_equal.
  unfold reshape2, histogram.
  apply list_eq; intros i. rewrite !list_lookup_fmap.
  destruct (decide (i < Z.to_nat N1)%nat) as [Hi|Hi];
    [|rewrite lookup_seq_ge by lia; done].
  rewrite lookup_seq_lt by done. simpl. f_equal.
  apply list_eq; intros j. rewrite lookup_take, lookup_drop, list_lookup_fmap.
  case_decide as Hj; [|rewrite lookup_seq_ge by lia; done].
  rewrite lookup_seq_lt by done. simpl.
  rewrite (BinningFacts.fold_scatter_lookup _ _ _ _ vzero)
    by (apply lookup_replicate_2; nia).
  f_equal. unfold pixel_sum. by apply BinningFacts.pixel_sum_flat.
Qed.

Lemma histogram_lookup (density : list V) (coords : list coord3) (N1 N2 i j : Z) :
  0 <= i < N1 -> 0 <= j < N2 ->
  entry2 (histogram vzero vadd N1 N2 density coords) (Z.to_nat i) (Z.to_nat j)
  = Some (pixel_sum vzero vadd N1 N2 density coords i j).
Proof.
  intros Hi Hj. unfold entry2, histogram.
  rewrite list_lookup_fmap, lookup_seq_lt by lia. cbn.
  rewrite list_lookup_fmap, lookup_seq_lt by lia. cbn.
  by rewrite !Z2Nat.id by lia.
Qed.


(** X2. [project_with_binning] reads only the first two columns of
    [coords]: two coordinate arrays that agree on them give the same
    result, error or image. *)
Theorem binning_ignores_third_coordinate
    (density : list V) (coords coords' : list coord3) (sh : Z * Z) :
  first_two <$> coords = first_two <$> coords' ->
  project_with_binning vzero vadd density coords sh
  = project_with_binning vzero vadd density coords' sh.
Proof.
  intros Hc. destruct sh as [N1 N2]. unfold project_with_binning.
  assert (Hflat : flat_coord N1 N2 <$> coords = flat_coord N1 N2 <$> coords').
  { transitivity ((fun xy : Q * Q =>
                     ravel_multi_index_clip (rint xy.1 + N1 / 2) (rint xy.2 + N2 / 2) N1 N2)
                    <$> (first_two <$> coords)).
    - rewrite <- list_fmap_compose. apply list_fmap_ext. by intros _ [[cx cy] cz] _.
    - rewrite Hc, <- list_fmap_compose. apply list_fmap_ext. by intros _ [[cx cy] cz] _. }
  by rewrite Hflat.
Qed.

(** The flat index of a point is an index of the flattened image. *)
Lemma flat_coord_range (N1 N2 : Z) (c : coord3) :
  0 < N1 -> 0 < N2 -> 0 <= flat_coord N1 N2 c < N1 * N2.
Proof.
  intros H1 H2. destruct c as [[cx cy] cz]. cbn. unfold ravel_multi_index_clip.
  pose proof (NpFacts.clip_range (rint cx + N1 / 2) 0 (N1 - 1)).
  pose proof (NpFacts.clip_range (rint cy + N2 / 2) 0 (N2 - 1)). nia.
Qed.

(** X3. On a positive shape every flat index handed to [jnp.bincount] lies
    in [[0, N1 * N2)]: the clamping of negative indices and the dropping of
    indices past the end, which the scatter-add of [bincount] has, never
    apply. *)
Theorem flat_index_in_range (N1 N2 : Z) (coords : list coord3) :
  0 < N1 -> 0 < N2 ->
  Forall (fun k => 0 <= k < N1 * N2) (flat_coord N1 N2 <$> coords).
Proof.
  intros H1 H2. apply Forall_fmap, Forall_forall. intros c _.
  by apply flat_coord_range.
Qed.

(** X4. On arrays of one length and a positive shape [project_with_binning]
    returns an array of exactly [N1] rows of [N2] entries. *)
Theorem binning_shape (density : list V) (coords : list coord3) (N1 N2 : Z) :
  length density = length coords -> 0 < N1 -> 0 < N2 ->
  exists projection,
    project_with_binning vzero vadd density coords (N1, N2) = inr projection
    /\ has_shape projection (Z.to_nat N1) (Z.to_nat N2).
Proof.
  intros Hlen H1 H2. eexists. split; [by apply binning_histogram|].
  unfold histogram. split; [by rewrite length_fmap, length_seq|].
  apply Forall_fmap, Forall_forall. intros i _. cbn.
  by rewrite length_fmap, length_seq.
Qed.


(** X6. A single point with integer first two coordinates [(x, y)] whose
    shifted indices [x + N1 // 2] and [y + N2 // 2] are inside the image
    is binned at exactly that pixel: the origin of the coordinates is pixel
    [(N1 // 2, N2 // 2)]. *)
Theorem integer_point_pixel (w : V) (x y : Z) (cz : Q) (N1 N2 : Z) :
  0 <= x + N1 / 2 < N1 -> 0 <= y + N2 / 2 < N2 ->
  exists projection,
    project_with_binning vzero vadd [w] [(inject_Z x, inject_Z y, cz)] (N1, N2)
    = inr projection
    /\ entry2 projection (Z.to_nat (x + N1 / 2)) (Z.to_nat (y + N2 / 2))
       = Some (vadd vzero w).
Proof.
  intros Hx Hy. eexists. split; [apply binning_histogram; [done|lia|lia]|].
  rewrite histogram_lookup by done. f_equal. unfold pixel_sum. cbn.
  rewrite !Float64Facts.rint_inject, !NpFacts.clip_inside by lia.
  by rewrite decide_True.
Qed.

Section Monoid.
Hypothesis vadd_assoc : forall x y z : V, vadd x (vadd y z) = vadd (vadd x y) z.
Hypothesis vadd_zero_l : forall x : V, vadd vzero x = x.
Hypothesis vadd_zero_r : forall x : V, vadd x vzero = x.

Lemma pixel_fold_start (N1 N2 i j : Z) (pts : list (coord3 * V)) (a : V) :
  fold_left (fun s cw => if decide (pixel_of N1 N2 cw.1 = (i, j)) then vadd s cw.2 else s)
    pts a
  = vadd a (fold_left
              (fun s cw => if decide (pixel_of N1 N2 cw.1 = (i, j)) then vadd s cw.2 else s)
              pts vzero).
Proof.
  revert a. induction pts as [|[c w] pts IH]; intros a; cbn; [by rewrite vadd_zero_r|].
  case_decide; [|apply IH].
  rewrite (IH (vadd a w)), (IH (vadd vzero w)), vadd_zero_l, vadd_assoc. done.
Qed.

Lemma pixel_sum_app (N1 N2 i j : Z) (d1 d2 : list V) (c1 c2 : list coord3) :
  length d1 = length c1 ->
  pixel_sum vzero vadd N1 N2 (d1 ++ d2) (c1 ++ c2) i j
  = vadd (pixel_sum vzero vadd N1 N2 d1 c1 i j) (pixel_sum vzero vadd N1 N2 d2 c2 i j).
Proof.
  intros Hlen. unfold pixel_sum.
  rewrite zip_with_app by done. rewrite fold_left_app. apply pixel_fold_start.
Qed.

(** X7. With an associative addition that has [vzero] as unit, the
    projection of two point clouds put one after the other is the
    entrywise sum of their projections. *)
Theorem binning_is_additive
    (d1 d2 : list V) (c1 c2 : list coord3) (N1 N2 : Z) :
  length d1 = length c1 -> length d2 = length c2 -> 0 < N1 -> 0 < N2 ->
  exists p1 p2,
    project_with_binning vzero vadd d1 c1 (N1, N2) = inr p1
    /\ project_with_binning vzero vadd d2 c2 (N1, N2) = inr p2
    /\ project_with_binning vzero vadd (d1 ++ d2) (c1 ++ c2) (N1, N2)
       = inr (image_add vadd p1 p2).
Proof.
  intros Hl1 Hl2 H1 H2. eexists _, _.
  split; [by apply binning_histogram|]. split; [by apply binning_histogram|].
  rewrite binning_histogram by (rewrite ?length_app; lia). f_equal.
  unfold histogram, image_add.
  rewrite zip_with_fmap_l, zip_with_fmap_r, zip_with_diag.
  apply list_fmap_ext. intros _ i _.
  rewrite zip_with_fmap_l, zip_with_fmap_r, zip_with_diag.
  apply list_fmap_ext. intros _ j _. by apply pixel_sum_app.
Qed.

Hypothesis vadd_comm : forall x y : V, vadd x y = vadd y x.

Lemma vsum_cons (x : V) (l : list V) :
  vsum vzero vadd (x :: l) = vadd x (vsum vzero vadd l).
Proof. reflexivity. Qed.

Lemma vsum_app (l k : list V) :
  vsum vzero vadd (l ++ k) = vadd (vsum vzero vadd l) (vsum vzero vadd k).
Proof.
  induction l as [|x l IH]; [by rewrite app_nil_l, vadd_zero_l|].
  by rewrite <- app_comm_cons, !vsum_cons, IH, vadd_assoc.
Qed.

Lemma vsum_alter (out : list V) (k : nat) (w : V) :
  (k < length out)%nat ->
  vsum vzero vadd (alter (fun v => vadd v w) k out) = vadd (vsum vzero vadd out) w.
Proof.
  revert k. induction out as [|x out IH]; intros k Hk; cbn in Hk; [lia|].
  destruct k as [|k].
  - change (alter (fun v => vadd v w) 0%nat (x :: out)) with (vadd x w :: out).
    rewrite !vsum_cons, <- !vadd_assoc. f_equal. apply vadd_comm.
  - change (alter (fun v => vadd v w) (S k) (x :: out))
      with (x :: alter (fun v => vadd v w) k out).
    rewrite !vsum_cons, IH by lia. apply vadd_assoc.
Qed.

Lemma vsum_bincount (pts : list (Z * V)) (out : list V) :
  Forall (fun iw => 0 <= iw.1 < Z.of_nat (length out)) pts ->
  vsum vzero vadd (fold_left (scatter_add vadd) pts out)
  = vadd (vsum vzero vadd out) (vsum vzero vadd pts.*2).
Proof.
  revert out. induction pts as [|[i w] pts IH]; intros out Hin.
  - cbn [fold_left fmap list_fmap]. by rewrite vadd_zero_r.
  - apply Forall_cons in Hin as [Hi Hin]. cbn [fst] in Hi.
    change (fold_left (scatter_add vadd) ((i, w) :: pts) out)
      with (fold_left (scatter_add vadd) pts (scatter_add vadd out (i, w))).
    rewrite IH by (by rewrite BinningFacts.scatter_add_length).
    unfold scatter_add. cbn [fst snd].
    rewrite vsum_alter by lia.
    by rewrite fmap_cons, vsum_cons, vadd_assoc.
Qed.

Lemma vsum_replicate (n : nat) : vsum vzero vadd (replicate n vzero) = vzero.
Proof.
  induction n as [|n IH]; [done|].
  change (replicate (S n) vzero) with (vzero :: replicate n vzero).
  by rewrite vsum_cons, IH, vadd_zero_l.
Qed.

Lemma vsum_chunks (a : list V) (n2 : nat) (n1 k : nat) :
  vsum vzero vadd
    ((fun i => vsum vzero vadd (take n2 (drop (i * n2) a))) <$> seq k n1)
  = vsum vzero vadd (take (n1 * n2) (drop (k * n2) a)).
Proof.
  revert k. induction n1 as [|n1 IH]; intros k; [done|].
  change (seq k (S n1)) with (k :: seq (S k) n1).
  rewrite fmap_cons, vsum_cons, IH.
  replace (S n1 * n2)%nat with (n2 + n1 * n2)%nat by lia.
  rewrite <- take_take_drop, vsum_app, drop_drop.
  replace (S k * n2)%nat with (k * n2 + n2)%nat by lia. done.
Qed.

Lemma image_sum_reshape2 (a : list V) (N1 N2 : Z) :
  length a = Z.to_nat (N1 * N2) -> 0 <= N1 -> 0 <= N2 ->
  image_sum vzero vadd (reshape2 a N1 N2) = vsum vzero vadd a.
Proof.
  intros Hlen H1 H2. unfold image_sum, reshape2.
  rewrite <- list_fmap_compose.
  etrans; [apply (vsum_chunks a (Z.to_nat N2) (Z.to_nat N1) 0)|].
  rewrite Z2Nat.inj_mul in Hlen by lia.
  cbn [Nat.mul]. rewrite drop_0, take_ge by lia. done.
Qed.

Lemma fold_scatter_length (pts : list (Z * V)) (out : list V) :
  length (fold_left (scatter_add vadd) pts out) = length out.
Proof.
  revert out. induction pts as [|iw pts IH]; intros out; [done|].
  cbn [fold_left]. by rewrite IH, BinningFacts.scatter_add_length.
Qed.

(** X8. With an associative and commutative addition that has [vzero] as
    unit, the entries of the projection sum to the sum of [density]: the
    clipping keeps every point, also those outside the image. *)
Theorem binning_conserves_total
    (density : list V) (coords : list coord3) (N1 N2 : Z) :
  length density = length coords -> 0 < N1 -> 0 < N2 ->
  exists projection,
    project_with_binning vzero vadd density coords (N1, N2) = inr projection
    /\ image_sum vzero vadd projection = vsum vzero vadd density.
Proof.
  intros Hlen H1 H2. unfold project_with_binning, bincount.
  rewrite decide_True by (rewrite length_fmap; done).
  eexists. split; [reflexivity|].
  cbn [mbind result_bind mret result_ret].
  rewrite image_sum_reshape2;
    [|by rewrite fold_scatter_length, length_replicate|lia|lia].
  rewrite vsum_bincount.
  - rewrite vsum_replicate, vadd_zero_l, snd_zip; [done|].
    rewrite length_fmap. lia.
  - rewrite length_replicate. apply Forall_forall. intros [k w] Hin.
    apply elem_of_zip_l in Hin. apply list_elem_of_fmap in Hin as (c & -> & _).
    cbn [fst]. pose proof (flat_coord_range N1 N2 c H1 H2). lia.
Qed.

Lemma pixel_fold_perm (N1 N2 i j : Z) (pts pts' : list (coord3 * V)) :
  pts ≡ₚ pts' ->
  forall a : V,
    fold_left (fun s cw => if decide (pixel_of N1 N2 cw.1 = (i, j)) then vadd s cw.2 else s)
      pts a
    = fold_left (fun s cw => if decide (pixel_of N1 N2 cw.1 = (i, j)) then vadd s cw.2 else s)
        pts' a.
Proof.
  induction 1 as [|x l l' _ IH|x y l|l l' l'' _ IH1 _ IH2]; intros a; cbn.
  - done.
  - apply IH.
  - f_equal. repeat case_decide; try done.
    rewrite <- !vadd_assoc. f_equal. apply vadd_comm.
  - by rewrite IH1.
Qed.

(** X9. With an associative and commutative addition, listing the points
    (with their densities) in another order gives the same projection. *)
Theorem binning_order_irrelevant (pts pts' : list (coord3 * V)) (N1 N2 : Z) :
  pts ≡ₚ pts' -> 0 < N1 -> 0 < N2 ->
  project_with_binning vzero vadd pts.*2 pts.*1 (N1, N2)
  = project_with_binning vzero vadd pts'.*2 pts'.*1 (N1, N2).
Proof.
  intros Hperm H1 H2.
  rewrite !binning_histogram by (rewrite ?length_fmap; done). f_equal.
  unfold histogram. apply list_fmap_ext. intros _ i _.
  apply list_fmap_ext. intros _ j _.
  unfold pixel_sum. rewrite !zip_fst_snd. by apply pixel_fold_perm.
Qed.

End Monoid.
End Laws.


(** Two clouds that differ in their third coordinates only. *)
Lemma binning_ignores_third_coordinate_witness :
  project_with_binning 0 Z.add [5; 7] [((-1)%Q, 0%Q, 0%Q); (1%Q, 1%Q, 3%Q)] (2, 3)
  = project_with_binning 0 Z.add [5; 7] [((-1)%Q, 0%Q, 8%Q); (1%Q, 1%Q, (-2)%Q)] (2, 3).
Proof.
  apply (binning_ignores_third_coordinate 0 Z.add [5; 7]
           [((-1)%Q, 0%Q, 0%Q); (1%Q, 1%Q, 3%Q)]
           [((-1)%Q, 0%Q, 8%Q); (1%Q, 1%Q, (-2)%Q)] (2, 3)).
  reflexivity.
Defined.

(** Two points far outside a [2 x 3] image. *)
Lemma flat_index_in_range_witness :
  Forall (fun k => 0 <= k < 2 * 3)
    (flat_coord 2 3 <$> [((-40)%Q, 0%Q, 0%Q); (40%Q, 40%Q, 0%Q)]).
Proof.
  apply (flat_index_in_range 2 3 [((-40)%Q, 0%Q, 0%Q); (40%Q, 40%Q, 0%Q)]); lia.
Defined.

(** Three points on a [2 x 3] image. *)
Lemma binning_shape_witness :
  exists projection,
    project_with_binning 0 Z.add [5; 7; 11]
      [((-1)%Q, 0%Q, 0%Q); ((1 # 2)%Q, (-3 # 2)%Q, 9%Q); (40%Q, 40%Q, 0%Q)] (2, 3)
    = inr projection
    /\ has_shape projection (Z.to_nat 2) (Z.to_nat 3).
Proof.
  apply (binning_shape 0 Z.add [5; 7; 11]
           [((-1)%Q, 0%Q, 0%Q); ((1 # 2)%Q, (-3 # 2)%Q, 9%Q); (40%Q, 40%Q, 0%Q)] 2 3);
    [reflexivity | lia | lia].
Defined.


(** The point [(-1, 1)] on a [4 x 4] image lands in pixel [(1, 3)]. *)
Lemma integer_point_pixel_witness :
  exists projection,
    project_with_binning 0 Z.add [7] [(inject_Z (-1), inject_Z 1, 5%Q)] (4, 4)
    = inr projection
    /\ entry2 projection (Z.to_nat (-1 + 4 / 2)) (Z.to_nat (1 + 4 / 2)) = Some (0 + 7).
Proof.
  apply (integer_point_pixel 0 Z.add 7 (-1) 1 5%Q 4 4);
    change (4 / 2) with 2; lia.
Defined.

(** One point, then two more, over the integers. *)
Lemma binning_is_additive_witness :
  exists p1 p2,
    project_with_binning 0 Z.add [5] [((-1)%Q, 0%Q, 0%Q)] (2, 3) = inr p1
    /\ project_with_binning 0 Z.add [7; 11] [((-1)%Q, 0%Q, 1%Q); (40%Q, 40%Q, 0%Q)] (2, 3)
       = inr p2
    /\ project_with_binning 0 Z.add ([5] ++ [7; 11])
         ([((-1)%Q, 0%Q, 0%Q)] ++ [((-1)%Q, 0%Q, 1%Q); (40%Q, 40%Q, 0%Q)]) (2, 3)
       = inr (image_add Z.add p1 p2).
Proof.
  apply (binning_is_additive 0 Z.add Z.add_assoc Z.add_0_l Z.add_0_r
           [5] [7; 11] [((-1)%Q, 0%Q, 0%Q)] [((-1)%Q, 0%Q, 1%Q); (40%Q, 40%Q, 0%Q)] 2 3);
    [reflexivity | reflexivity | lia | lia].
Defined.

(** Three points over the integers, one of them clipped. *)
Lemma binning_conserves_total_witness :
  exists projection,
    project_with_binning 0 Z.add [5; 7; 11]
      [((-1)%Q, 0%Q, 0%Q); ((1 # 2)%Q, (-3 # 2)%Q, 9%Q); (40%Q, 40%Q, 0%Q)] (2, 3)
    = inr projection
    /\ image_sum 0 Z.add projection = vsum 0 Z.add [5; 7; 11].
Proof.
  apply (binning_conserves_total 0 Z.add Z.add_assoc Z.add_0_l Z.add_0_r Z.add_comm
           [5; 7; 11]
           [((-1)%Q, 0%Q, 0%Q); ((1 # 2)%Q, (-3 # 2)%Q, 9%Q); (40%Q, 40%Q, 0%Q)] 2 3);
    [reflexivity | lia | lia].
Defined.

(** Two points, swapped. *)
Lemma binning_order_irrelevant_witness :
  project_with_binning 0 Z.add
    [((-1)%Q, 0%Q, 0%Q, 5); (40%Q, 40%Q, 0%Q, 11)].*2
    [((-1)%Q, 0%Q, 0%Q, 5); (40%Q, 40%Q, 0%Q, 11)].*1 (2, 3)
  = project_with_binning 0 Z.add
      [(40%Q, 40%Q, 0%Q, 11); ((-1)%Q, 0%Q, 0%Q, 5)].*2
      [(40%Q, 40%Q, 0%Q, 11); ((-1)%Q, 0%Q, 0%Q, 5)].*1 (2, 3).
Proof.
  apply (binning_order_irrelevant 0 Z.add Z.add_assoc Z.add_comm
           [((-1)%Q, 0%Q, 0%Q, 5); (40%Q, 40%Q, 0%Q, 11)]
           [(40%Q, 40%Q, 0%Q, 11); ((-1)%Q, 0%Q, 0%Q, 5)] 2 3);
    [apply perm_swap | lia | lia].
Defined.
End BinningLaws.

(** ** Laws of the padded shape *)

Module ConfigLaws.
Import Scattering.

Section Rounding.
Context `{F : FloatMul} `{L : !FloatMulLaws}.

(** Equal rationals round alike. *)
Lemma float_round_proper (x y : Q) : (x == y)%Q -> (float_round x == float_round y)%Q.
Proof.
  intros H. apply Qle_antisym; apply float_round_mono; rewrite H; apply Qle_refl.
Qed.

Lemma py_int_proper (x y : Q) : (x == y)%Q -> (0 <= y)%Q -> py_int x = py_int y.
Proof.
  intros H Hy. rewrite !ScatteringFacts.py_int_floor by (rewrite ?H; done).
  by rewrite H.
Qed.

(** An integral scale multiplies a dimension exactly. *)
Lemma scale_dim_integral (s k : Z) (p : Q) :
  0 <= s -> 0 <= k -> s * k <= 2 ^ 53 -> (p == inject_Z k)%Q ->
  py_int (scale_dim s p) = s * k.
Proof.
  intros Hs Hk Hsk Hp. unfold scale_dim.
  assert (Hr : (float_round (inject_Z s * p) == inject_Z (s * k))%Q).
  { rewrite <- (float_round_int (s * k)) by lia.
    apply float_round_proper. by rewrite Hp, inject_Z_mult. }
  rewrite (py_int_proper _ _ Hr) by (apply ScatteringFacts.inject_Z_nonneg; lia).
  apply ScatteringFacts.py_int_inject.
Qed.

Lemma scale_dim_mono (s : Z) (p p' : Q) :
  0 <= s -> (0 <= p)%Q -> (p <= p')%Q ->
  py_int (scale_dim s p) <= py_int (scale_dim s p').
Proof.
  intros Hs Hp Hpp'.
  apply ScatteringFacts.py_int_mono; [by apply ScatteringFacts.scale_dim_nonneg|].
  unfold scale_dim. apply float_round_mono.
  pose proof (ScatteringFacts.inject_Z_nonneg s Hs). nra.
Qed.
End Rounding.

Section Laws.
Context {V : Type} `{U : Utils V} `{F : FloatMul} `{L : !FloatMulLaws}.

(** X10. With a non-negative shape and a [pad_scale] that is a non-negative
    integer [k] (the products within the integers a float holds exactly),
    the padded shape is exactly [(s1 * k, s2 * k)]. *)
Theorem integral_pad_scale_multiplies
    (s1 s2 k : Z) (px p : Q) (cfg : ImageConfig) :
  0 <= s1 -> 0 <= s2 -> 0 <= k -> s1 * k <= 2 ^ 53 -> s2 * k <= 2 ^ 53 ->
  (p == inject_Z k)%Q ->
  __post_init__ (s1, s2) px p = inr cfg ->
  padded_shape cfg = (s1 * k, s2 * k).
Proof.
  intros H1 H2 Hk Hb1 Hb2 Hp Hcfg.
  destruct (ScatteringFacts.post_init_fields _ _ _ _ Hcfg) as (_ & _ & _ & ->).
  cbn [fst snd]. by rewrite !(scale_dim_integral _ k).
Qed.

(** X11. With the default [pad_scale] of [1] nothing is padded: the padded
    shape is the nominal shape, and the padded frequency and coordinate
    grids are the nominal ones. *)
Theorem unit_pad_scale_pads_nothing
    (s1 s2 : Z) (px : Q) (cfg : ImageConfig) :
  0 <= s1 <= 2 ^ 53 -> 0 <= s2 <= 2 ^ 53 ->
  __post_init__ (s1, s2) px 1 = inr cfg ->
  padded_shape cfg = shape cfg
  /\ padded_freqs cfg = freqs cfg
  /\ padded_coords cfg = coords cfg.
Proof.
  intros H1 H2. unfold __post_init__. cbn [fst snd].
  rewrite !(scale_dim_integral _ 1) by (try reflexivity; lia).
  rewrite !Z.mul_1_r.
  destruct (fftfreqs (s1, s2) px false) as [e|f]; [discriminate|].
  destruct (fftfreqs (s1, s2) px true) as [e|c]; [discriminate|].
  cbn. intros [= <-]. done.
Qed.

(** X12. On a non-negative shape the padded shape grows with a
    non-negative [pad_scale]: a larger scale never gives a smaller padded
    dimension, whatever the pixel sizes. *)
Theorem padded_shape_monotone
    (s1 s2 : Z) (px px' p p' : Q) (cfg cfg' : ImageConfig) :
  0 <= s1 -> 0 <= s2 -> (0 <= p)%Q -> (p <= p')%Q ->
  __post_init__ (s1, s2) px p = inr cfg ->
  __post_init__ (s1, s2) px' p' = inr cfg' ->
  (padded_shape cfg).1 <= (padded_shape cfg').1
  /\ (padded_shape cfg).2 <= (padded_shape cfg').2.
Proof.
  intros H1 H2 Hp Hpp' Hcfg Hcfg'.
  destruct (ScatteringFacts.post_init_fields _ _ _ _ Hcfg) as (_ & _ & _ & ->).
  destruct (ScatteringFacts.post_init_fields _ _ _ _ Hcfg') as (_ & _ & _ & ->).
  cbn [fst snd]. split; by apply scale_dim_mono.
Qed.
End Laws.

(** A shape of [(5, 6)] padded by [2], in binary64 arithmetic. *)
Lemma integral_pad_scale_multiplies_witness :
  exists cfg,
    __post_init__ (U := IntUtils.int_utils) (F := Float64.binary64) (5, 6) 1 2 = inr cfg
    /\ padded_shape cfg = (5 * 2, 6 * 2).
Proof.
  eexists. split; [vm_compute; reflexivity|].
  apply (integral_pad_scale_multiplies (U := IntUtils.int_utils)
           (L := Float64Facts.binary64_laws) 5 6 2 1 2);
    [lia | lia | lia | lia | lia | reflexivity | vm_compute; reflexivity].
Defined.

(** A shape of [(5, 6)] with [pad_scale = 1]. *)
Lemma unit_pad_scale_pads_nothing_witness :
  exists cfg,
    __post_init__ (U := IntUtils.int_utils) (F := Float64.binary64) (5, 6) (1 # 2) 1
    = inr cfg
    /\ padded_shape cfg = shape cfg.
Proof.
  eexists. split; [vm_compute; reflexivity|].
  apply (unit_pad_scale_pads_nothing (U := IntUtils.int_utils)
           (L := Float64Facts.binary64_laws) 5 6 (1 # 2));
    [lia | lia | vm_compute; reflexivity].
Defined.

(** A shape of [(5, 6)] padded by [3/2] and by [7/4]. *)
Lemma padded_shape_monotone_witness :
  exists cfg cfg',
    __post_init__ (U := IntUtils.int_utils) (F := Float64.binary64) (5, 6) 1 (3 # 2)
    = inr cfg
    /\ __post_init__ (U := IntUtils.int_utils) (F := Float64.binary64) (5, 6) 1 (7 # 4)
       = inr cfg'
    /\ (padded_shape cfg).1 <= (padded_shape cfg').1
    /\ (padded_shape cfg).2 <= (padded_shape cfg').2.
Proof.
  eexists _, _. split; [vm_compute; reflexivity|]. split; [vm_compute; reflexivity|].
  apply (padded_shape_monotone (U := IntUtils.int_utils)
           (L := Float64Facts.binary64_laws) 5 6 1 1 (3 # 2) (7 # 4));
    [lia | lia | unfold Qle; simpl; lia | unfold Qle; simpl; lia
    | vm_compute; reflexivity | vm_compute; reflexivity].
Defined.
End ConfigLaws.

(** ** Laws of the [scatter] methods *)

Module ScatterLaws.
Import Scattering.

Section Laws.
Context {V : Type} `{U : Utils V}.


(** X14. Whatever the class of the object, [scatter] does not depend on
    the third column of the coordinates nor on the third component of the
    box size. *)
Theorem scatter_ignores_third_component (self : ScatteringConfig)
    (density : list V) (coordinates coordinates' : list coord3)
    (box_size box_size' : coord3) :
  first_two <$> coordinates = first_two <$> coordinates' ->
  first_two box_size = first_two box_size' ->
  scatter self [ArgDensity density; ArgCoordinates coordinates; ArgBox box_size] []
  = scatter self [ArgDensity density; ArgCoordinates coordinates'; ArgBox box_size'] [].
Proof.
  intros Hc Hb. unfold scatter, project_with_nufft, project_with_gaussians.
  destruct (variant self); rewrite ?Hc, ?Hb; done.
Qed.

(** X15. Of the configuration, [scatter] reads the padded shape and, for
    [GaussianScattering], the pixel size: two objects of one class and
    field that agree on these return the same, whatever their nominal
    shape, [pad_scale] and cached grids. *)
Theorem scatter_reads_padded_plane (self self' : ScatteringConfig)
    (args : list arg) (kwargs : list (string * arg)) :
  variant self = variant self' ->
  padded_shape (config self) = padded_shape (config self') ->
  (forall scale, variant self = GaussianScattering scale ->
                 pixel_size (config self) = pixel_size (config self')) ->
  (scatter self args kwargs).2 = (scatter self' args kwargs).2.
Proof.
  intros Hv Hp Hpx. unfold scatter. rewrite <- Hv.
  destruct (variant self) as [order|eps|scale] eqn:E; [done| |].
  - destruct args as [|[] [|[] [|[] [|? ?]]]]; try done.
    destruct kwargs; [|done]. cbn. by rewrite Hp.
  - destruct args as [|[] [|[] [|[] [|? ?]]]]; try done.
    destruct kwargs; [|done]. cbn. by rewrite Hp, (Hpx scale).
Qed.
End Laws.

Section Pipeline.
Context {V : Type} `{U : Utils V} `{F : FloatMul} `{L : !FloatMulLaws}.

End Pipeline.


(** Coordinates and boxes that differ in their third component only, on a Gaussian configuration. *)
Lemma scatter_ignores_third_component_witness :
  exists self,
    new_scattering (U := IntUtils.int_utils) (F := Float64.binary64)
      (GaussianScattering (1 # 3)) (4, 4) 1 1 = inr self
    /\ scatter (U := IntUtils.int_utils) self
         [ArgDensity [3; 4]; ArgCoordinates [(0%Q, 0%Q, 5%Q); (1%Q, 0%Q, 1%Q)];
          ArgBox (4%Q, 4%Q, 4%Q)] []
       = scatter (U := IntUtils.int_utils) self
           [ArgDensity [3; 4]; ArgCoordinates [(0%Q, 0%Q, (-7)%Q); (1%Q, 0%Q, 2%Q)];
            ArgBox (4%Q, 4%Q, 100%Q)] [].
Proof.
  eexists. split; [vm_compute; reflexivity|].
  apply (scatter_ignores_third_component (U := IntUtils.int_utils));
    reflexivity.
Defined.

(** A [(4, 4)] plane unpadded and a [(2, 2)] plane padded by [2], of different pixel sizes. *)
Lemma scatter_reads_padded_plane_witness :
  exists self self',
    new_scattering (U := IntUtils.int_utils) (F := Float64.binary64)
      (NufftScattering (1 # 1000000)) (4, 4) 1 1 = inr self
    /\ new_scattering (U := IntUtils.int_utils) (F := Float64.binary64)
         (NufftScattering (1 # 1000000)) (2, 2) 3 2 = inr self'
    /\ (scatter (U := IntUtils.int_utils) self
          [ArgDensity [3; 4]; ArgCoordinates [(0%Q, 0%Q, 0%Q); (1%Q, 0%Q, 0%Q)];
           ArgBox (4%Q, 4%Q, 4%Q)] []).2
       = (scatter (U := IntUtils.int_utils) self'
            [ArgDensity [3; 4]; ArgCoordinates [(0%Q, 0%Q, 0%Q); (1%Q, 0%Q, 0%Q)];
             ArgBox (4%Q, 4%Q, 4%Q)] []).2.
Proof.
  eexists _, _. split; [vm_compute; reflexivity|]. split; [vm_compute; reflexivity|].
  apply (scatter_reads_padded_plane (U := IntUtils.int_utils));
    [reflexivity | vm_compute; reflexivity | discriminate].
Defined.

End ScatterLaws.

(** ** [project_with_slice] and the central plane *)

Module SliceFacts.
Import Np Voxels Arrays Slice.

Lemma head_ifftshift1 {T : Type} (row : list T) :
  head (ifftshift1 row) = row !! (length row / 2)%nat.
Proof.
  unfold ifftshift1. destruct row as [|x row]; [done|].
  rewrite head_lookup, lookup_rotate_r by (cbn; lia).
  rewrite rotate_nat_add_0; [done|].
  apply Nat.div_lt; cbn; lia.
Qed.

Lemma mapM_rotate {A B : Type} (f : A -> option B) (n : nat) (l : list A) :
  mapM f (rotate n l) = rotate n <$> mapM f l.
Proof.
  destruct (mapM f l) as [k|] eqn:E; cbn.
  - apply mapM_Some, Forall2_rotate. by apply mapM_Some.
  - apply mapM_None. apply mapM_None in E.
    apply Exists_exists in E as (x & Hx & Hfx).
    apply Exists_exists. exists x. split; [by apply elem_of_rotate|done].
Qed.

Lemma mapM_fmap_compose {A B D : Type} (f : B -> option D) (g : A -> B) (l : list A) :
  mapM f (g <$> l) = mapM (f ∘ g) l.
Proof. induction l as [|x l IH]; [done|]. cbn. by rewrite IH. Qed.

Lemma mapM_ifftshift1 {A B : Type} (f : A -> option B) (l : list A) :
  mapM f (ifftshift1 l) = ifftshift1 <$> mapM f l.
Proof.
  unfold ifftshift1 at 1. rewrite mapM_rotate.
  destruct (mapM f l) as [k|] eqn:E; [|done]. cbn.
  unfold ifftshift1. by rewrite (length_mapM _ _ _ E).
Qed.

(** The first entries of a shifted array are the shifted central entries. *)
Lemma first_of_ifftshift {T : Type} (g : grid3 T) :
  mapM (mapM head) (ifftshift g)
  = ifftshift1 <$> mapM (fun prow : list (option T) =>
                          ifftshift1 <$> mapM (fun o : option T => o) prow)
                  (central_plane g).
Proof.
  unfold ifftshift, central_plane.
  rewrite mapM_ifftshift1, !mapM_fmap_compose. f_equal.
  apply mapM_ext. intros plane. cbn.
  rewrite mapM_ifftshift1, !mapM_fmap_compose. f_equal.
  apply mapM_ext. intros row. cbn. apply head_ifftshift1.
Qed.

Lemma central_plane_map3 {A B : Type} (h : A -> B) (g : grid3 A) :
  central_plane (map3 h g)
  = (fun prow : list (option A) => (fun o : option A => h <$> o) <$> prow)
      <$> central_plane g.
Proof.
  unfold central_plane, map3. rewrite <- !list_fmap_compose.
  apply list_fmap_ext. intros _ plane _. cbn.
  rewrite <- !list_fmap_compose. apply list_fmap_ext. intros _ row _. cbn.
  by rewrite list_lookup_fmap, length_fmap.
Qed.

Lemma rotate_nat_add_mod (base offset len : nat) :
  rotate_nat_add base offset len = ((offset + base) mod len)%nat.
Proof.
  unfold rotate_nat_add.
  rewrite <- Nat2Z.inj_add, <- Nat2Z.inj_mod, Nat2Z.id. f_equal. lia.
Qed.

Lemma lookup_ifftshift1 {T : Type} (l : list T) (i : nat) :
  (i < length l)%nat ->
  ifftshift1 l !! i = l !! ((i + length l / 2) mod length l)%nat.
Proof.
  intros Hi. unfold ifftshift1. by rewrite lookup_rotate_r, rotate_nat_add_mod.
Qed.

Lemma entry3_ifftshift {T : Type} (m : nat * nat * nat) (g : grid3 T) (i j k : nat) :
  has_shape3 m g -> (i < m.1.1)%nat -> (j < m.1.2)%nat -> (k < m.2)%nat ->
  entry3 (ifftshift g) i j k
  = entry3 g ((i + m.1.1 / 2) mod m.1.1)%nat ((j + m.1.2 / 2) mod m.1.2)%nat
      ((k + m.2 / 2) mod m.2)%nat.
Proof.
  destruct m as [[m1 m2] m3]. unfold has_shape3. cbn [fst snd].
  intros [H1 Hplanes] Hi Hj Hk.
  assert (Hi' : ((i + m1 / 2) mod m1 < length g)%nat)
    by (rewrite H1; apply Nat.mod_upper_bound; lia).
  destruct (lookup_lt_is_Some_2 _ _ Hi') as [plane Hplane].
  destruct (proj1 (Forall_lookup _ _) Hplanes _ _ Hplane) as [H2 Hrows].
  assert (Hj' : ((j + m2 / 2) mod m2 < length plane)%nat)
    by (rewrite H2; apply Nat.mod_upper_bound; lia).
  destruct (lookup_lt_is_Some_2 _ _ Hj') as [row Hrow].
  pose proof (proj1 (Forall_lookup _ _) Hrows _ _ Hrow) as H3. cbn beta in H3.
  unfold entry3, entry2 at 2. rewrite Hplane, Hrow.
  unfold ifftshift.
  rewrite lookup_ifftshift1 by (rewrite length_fmap; lia).
  rewrite length_fmap, H1, list_lookup_fmap, Hplane.
  cbn [fmap option_fmap option_map]. unfold entry2.
  rewrite lookup_ifftshift1 by (rewrite length_fmap; lia).
  rewrite length_fmap, H2, list_lookup_fmap, Hrow.
  cbn [fmap option_fmap option_map].
  by rewrite lookup_ifftshift1, H3 by lia.
Qed.

Lemma entry3_map3 {A B : Type} (h : A -> B) (g : grid3 A) (i j k : nat) :
  entry3 (map3 h g) i j k = h <$> entry3 g i j k.
Proof.
  unfold entry3, entry2, map3. rewrite list_lookup_fmap.
  destruct (g !! i) as [plane|]; [|done]. cbn. rewrite list_lookup_fmap.
  destruct (plane !! j) as [row|]; [|done]. cbn. by rewrite list_lookup_fmap.
Qed.

Lemma entry2_fmap {A B : Type} (h : A -> B) (a : image A) (i j : nat) :
  entry2 ((fun row : list A => h <$> row) <$> a) i j = h <$> entry2 a i j.
Proof.
  unfold entry2. rewrite list_lookup_fmap.
  destruct (a !! i) as [row|]; [|done]. cbn. by rewrite list_lookup_fmap.
Qed.

(** On an array whose third axis is not empty, indexing it at [0]
    succeeds, entry by entry. *)
Lemma first_entries_entry {T : Type} (m : nat * nat * nat) (a : grid3 T) :
  has_shape3 m a -> (0 < m.2)%nat ->
  exists plane,
    first_entries a = inr plane
    /\ forall i j, (i < m.1.1)%nat -> (j < m.1.2)%nat ->
                   entry2 plane i j = entry3 a i j 0.
Proof.
  destruct m as [[m1 m2] m3]. unfold has_shape3. cbn [fst snd].
  intros [H1 Hplanes] H3.
  unfold first_entries.
  destruct (mapM (mapM head) a) as [plane|] eqn:E.
  - exists plane. split; [done|]. intros i j Hi Hj.
    apply mapM_Some_1 in E. unfold entry3, entry2.
    destruct (lookup_lt_is_Some_2 a i ltac:(lia)) as [p Hp]. rewrite Hp. cbn.
    destruct (Forall2_lookup_l _ _ _ _ _ E Hp) as (q & Hq & Hpq). rewrite Hq. cbn.
    apply mapM_Some_1 in Hpq.
    destruct (proj1 (Forall_lookup _ _) Hplanes _ _ Hp) as [H2 Hrows].
    destruct (lookup_lt_is_Some_2 p j ltac:(lia)) as [row Hrow]. rewrite Hrow. cbn.
    destruct (Forall2_lookup_l _ _ _ _ _ Hpq Hrow) as (t & Ht & Hhead).
    by rewrite Ht, <- head_lookup.
  - exfalso. apply mapM_None in E. apply Exists_exists in E as (p & Hp & Hnone).
    apply mapM_None in Hnone. apply Exists_exists in Hnone as (row & Hrow & Hhead).
    destruct (proj1 (Forall_forall _ _) Hplanes _ Hp) as [_ Hrows].
    pose proof (proj1 (Forall_forall _ _) Hrows _ Hrow) as Hlen.
    destruct row; [cbn in Hlen; lia|done].
Qed.

Section Facts.
Context {V : Type} (vmul : V -> V -> V) (of_int : Z -> V).
Context {kwargs : Type}.
Context (map_coordinates : grid3 V -> list (grid3 V) -> kwargs -> result (grid3 V)).

(** The shift of the last axis rolls the components. *)
Lemma ifftshift_vector_rolls (x y z : V) : ifftshift_vector (x, y, z) = (y, z, x).
Proof. reflexivity. Qed.

Lemma sampling_of_central_plane
    (density : grid3 V) (c c' : grid3 (V * V * V)) (pixel_size : V) :
  central_plane c = central_plane c' ->
  sampling_coordinates vmul of_int density c pixel_size
  = sampling_coordinates vmul of_int density c' pixel_size.
Proof.
  intros Hc. unfold sampling_coordinates, first_entries, ifftshift4.
  by rewrite !first_of_ifftshift, !central_plane_map3, Hc.
Qed.

(** X17. [project_with_slice] reads its coordinates on one plane only,
    the middle index [M3 // 2] of their third axis: two coordinate arrays
    that agree there give the same result. *)
Theorem project_with_slice_reads_central_plane
    (density : grid3 V) (c c' : grid3 (V * V * V)) (pixel_size : V) (kw : kwargs) :
  central_plane c = central_plane c' ->
  project_with_slice vmul of_int map_coordinates density c pixel_size kw
  = project_with_slice vmul of_int map_coordinates density c' pixel_size kw.
Proof.
  intros Hc. unfold project_with_slice.
  by rewrite (sampling_of_central_plane density c c' pixel_size Hc).
Qed.

(** X18. The coordinate array handed to [map_coordinates].  For a density
    of shape [(N1, N2, N3)] and coordinates of shape [(M1, M2, M3, 3)],
    its entry [(i, j)] comes from the coordinate vector [(x, y, z)] at
    [((i + M1 // 2) mod M1, (j + M2 // 2) mod M2, M3 // 2)], scaled
    by the box shape and the pixel size and with its components rolled by
    the shift of the last axis: the three component arrays hold
    [y * N2 * pixel_size], [z * N3 * pixel_size] and
    [x * N1 * pixel_size]. *)
Theorem sampling_coordinates_entry
    (density : grid3 V) (c : grid3 (V * V * V)) (pixel_size : V)
    (n m : nat * nat * nat) (i j : nat) (x y z : V) :
  has_shape3 n density -> (0 < n.1.1)%nat -> (0 < n.1.2)%nat -> (0 < n.2)%nat ->
  has_shape3 m c -> (i < m.1.1)%nat -> (j < m.1.2)%nat -> (0 < m.2)%nat ->
  entry3 c ((i + m.1.1 / 2) mod m.1.1)%nat ((j + m.1.2 / 2) mod m.1.2)%nat (m.2 / 2)%nat
  = Some (x, y, z) ->
  exists c0 c1 c2,
    sampling_coordinates vmul of_int density c pixel_size = inr [c0; c1; c2]
    /\ entry2 c0 i j = Some [vmul (vmul y (of_int (Z.of_nat n.1.2))) pixel_size]
    /\ entry2 c1 i j = Some [vmul (vmul z (of_int (Z.of_nat n.2))) pixel_size]
    /\ entry2 c2 i j = Some [vmul (vmul x (of_int (Z.of_nat n.1.1))) pixel_size].
Proof.
  intros Hn Hn1 Hn2 Hn3 Hm Hi Hj Hm3 Hentry.
  unfold sampling_coordinates.
  rewrite (FftFacts.shape3_in_range n density (0, 0, 0)%nat Hn) by done.
  set (g := map3 (scale_coordinate vmul of_int n pixel_size) c).
  assert (Hg : has_shape3 m (ifftshift4 g)).
  { unfold ifftshift4, g. by apply ShiftFacts.ifftshift_shape, PotentialFacts.map3_shape,
      PotentialFacts.map3_shape. }
  destruct (first_entries_entry m _ Hg Hm3) as (plane & -> & Hplane).
  assert (Hp : entry2 plane i j
               = Some (ifftshift_vector (scale_coordinate vmul of_int n pixel_size (x, y, z)))).
  { rewrite Hplane by done. unfold ifftshift4.
    rewrite (entry3_ifftshift m) by (try done; by apply PotentialFacts.map3_shape,
      PotentialFacts.map3_shape).
    unfold g. rewrite !entry3_map3.
    rewrite Nat.add_0_l, (Nat.mod_small (m.2 / 2)) by (apply Nat.div_lt; lia).
    by rewrite Hentry. }
  eexists _, _, _. split; [reflexivity|].
  rewrite !entry2_fmap, Hp. done.
Qed.
End Facts.

(** Coordinates of shape [(1, 1, 3, 3)] that differ off the middle index. *)
Lemma project_with_slice_reads_central_plane_witness :
  project_with_slice Z.mul (fun z => z)
    (fun (_ : grid3 Z) cs (_ : unit) => inr (default [] (head cs)))
    [[[1; 2]]] [[[(1, 2, 3); (4, 5, 6); (7, 8, 9)]]] 2 ()
  = project_with_slice Z.mul (fun z => z)
      (fun (_ : grid3 Z) cs (_ : unit) => inr (default [] (head cs)))
      [[[1; 2]]] [[[(0, 0, 0); (4, 5, 6); (-1, -1, -1)]]] 2 ().
Proof.
  apply (project_with_slice_reads_central_plane Z.mul (fun z => z)
           (fun (_ : grid3 Z) cs (_ : unit) => inr (default [] (head cs)))
           [[[1; 2]]] [[[(1, 2, 3); (4, 5, 6); (7, 8, 9)]]]
           [[[(0, 0, 0); (4, 5, 6); (-1, -1, -1)]]] 2 ()).
  reflexivity.
Defined.

(** A density of shape [(1, 3, 2)] and coordinates of shape [(2, 1, 3, 3)], over the integers: entry [(0, 0)] comes from the vector [(13, 14, 15)] at [(1, 0, 1)]. *)
Lemma sampling_coordinates_entry_witness :
  exists c0 c1 c2,
    sampling_coordinates Z.mul (fun z => z)
      [[[1; 2]; [3; 4]; [5; 6]]]
      [[[(1, 2, 3); (4, 5, 6); (7, 8, 9)]]; [[(10, 11, 12); (13, 14, 15); (16, 17, 18)]]]
      2
    = inr [c0; c1; c2]
    /\ entry2 c0 0 0 = Some [14 * 3 * 2]
    /\ entry2 c1 0 0 = Some [15 * 2 * 2]
    /\ entry2 c2 0 0 = Some [13 * 1 * 2].
Proof.
  apply (sampling_coordinates_entry Z.mul (fun z => z)
           [[[1; 2]; [3; 4]; [5; 6]]]
           [[[(1, 2, 3); (4, 5, 6); (7, 8, 9)]];
            [[(10, 11, 12); (13, 14, 15); (16, 17, 18)]]]
           2 (1, 3, 2)%nat (2, 1, 3)%nat 0 0 13 14 15);
    [ split; [reflexivity | repeat constructor] | cbn; lia | cbn; lia | cbn; lia
    | split; [reflexivity | repeat constructor] | cbn; lia | cbn; lia | cbn; lia
    | reflexivity ].
Defined.
End SliceFacts.
